(** * GpgME++ core: error values, flag sets and the string splitter

    A shallow embedding of [src/error.cpp], [src/flags.h] and
    [src/util.cpp], and the properties of these three components.

    Integers of the C++ code are modelled as [Z] with the wrap-around of
    their type written out; bit operations are those of [Z]
    ([Z.land], [Z.lor], [Z.lxor], [Z.lnot], [Z.shiftl], [Z.shiftr]).
    Characters are [Byte.byte]; a C string is a sequence of bytes read up
    to its first NUL byte. *)

From Stdlib Require Import String.
From Stdlib Require Import ZArith List Bool Lia.
From Stdlib.Strings Require Import Byte.
From Stdlib Require Import FunInd Recdef.
Import ListNotations.

Local Open Scope Z_scope.

(* ===================================================================== *)
(** ** C character arrays *)
(* ===================================================================== *)

(** A character array is the list of its bytes; a [char *] into it is an
    offset.  Every access is bounds-checked: [None] stands for an access
    outside the array, which the C++ code must never perform. *)
Module CString.

Definition NUL : byte := x00.

(** [std::strlen] on the bytes from the pointer on: the number of bytes
    before the first NUL; running off the array is an out-of-bounds
    read. *)
Fixpoint strlen_from (suffix : list byte) : option nat :=
  match suffix with
  | [] => None
  | b :: rest =>
      if Byte.eqb b NUL then Some O
      else option_map S (strlen_from rest)
  end.

Definition strlen (mem : list byte) (s : nat) : option nat :=
  strlen_from (skipn s mem).

(** [std::strchr (s, c)]: the position of the first byte equal to [c],
    the terminating NUL included in the search; [Some None] is the null
    pointer (no occurrence before the terminator). *)
Fixpoint strchr_from (suffix : list byte) (s : nat) (c : byte)
  : option (option nat) :=
  match suffix with
  | [] => None
  | b :: rest =>
      if Byte.eqb b c then Some (Some s)
      else if Byte.eqb b NUL then Some None
      else strchr_from rest (S s) c
  end.

Definition strchr (mem : list byte) (s : nat) (c : byte)
  : option (option nat) :=
  strchr_from (skipn s mem) s c.

(** [buf[i] = b] *)
Definition store (buf : list byte) (i : nat) (b : byte)
  : option (list byte) :=
  if (i <? length buf)%nat
  then Some (firstn i buf ++ b :: skipn (S i) buf)
  else None.

(** [memcpy (dst, src, n)] *)
Definition memcpy (dst src : list byte) (n : nat) : option (list byte) :=
  if ((n <=? length dst) && (n <=? length src))%nat
  then Some (firstn n src ++ skipn n dst)
  else None.

(** The text of a C string: the bytes before the first NUL. *)
Fixpoint c_text (arr : list byte) : list byte :=
  match arr with
  | [] => []
  | b :: rest => if Byte.eqb b NUL then [] else b :: c_text rest
  end.

(** Constructing a [std::string] from a [char] pointer copies the bytes
    before the NUL. *)
Definition string_of_c (buf : list byte) : option (list byte) :=
  match strlen buf 0 with
  | Some n => Some (firstn n buf)
  | None => None
  end.

(** A string literal: its characters followed by the terminator. *)
Definition literal (text : list byte) : list byte := text ++ [NUL].

End CString.

(* ===================================================================== *)
(** ** The error-value convention of the external collaborator *)
(* ===================================================================== *)

(** Modelled from the spec: the packing convention of the external
    collaborator ([gpg-error.h] of libgpg-error, reached through
    [#include <gpgme.h>]), which is not part of this repository.  The spec
    fixes the layout as "high-order bits = source, low-order bits = code"
    and names three reserved code values; the widths, the shift, the
    numeric values of the sentinels and the treatment of the "no error"
    code by the constructor are those of the collaborator's header:

<<
    #define GPG_ERR_SOURCE_DIM 128
    #define GPG_ERR_CODE_DIM   65536
    #define GPG_ERR_CODE_MASK    (GPG_ERR_CODE_DIM - 1)
    #define GPG_ERR_SOURCE_MASK  (GPG_ERR_SOURCE_DIM - 1)
    #define GPG_ERR_SOURCE_SHIFT 24

    gpg_err_make (source, code):
      return code == GPG_ERR_NO_ERROR ? GPG_ERR_NO_ERROR
        : (((source & GPG_ERR_SOURCE_MASK) << GPG_ERR_SOURCE_SHIFT)
           | (code & GPG_ERR_CODE_MASK));
    gpg_err_code (err):   return err & GPG_ERR_CODE_MASK;
    gpg_err_source (err): return (err >> GPG_ERR_SOURCE_SHIFT)
                                 & GPG_ERR_SOURCE_MASK;
>>
    [gpgme_err_make], [gpgme_err_code] and [gpgme_err_source] forward to
    these. *)
Module GpgError.

Definition GPG_ERR_SOURCE_DIM : Z := 128.
Definition GPG_ERR_CODE_DIM : Z := 65536.

Definition GPG_ERR_CODE_MASK : Z := GPG_ERR_CODE_DIM - 1.
Definition GPG_ERR_SOURCE_MASK : Z := GPG_ERR_SOURCE_DIM - 1.
Definition GPG_ERR_SOURCE_SHIFT : Z := 24.

(** The reserved code values, from [gpg_err_code_t]:
<<
    GPG_ERR_NO_ERROR = 0,
    GPG_ERR_CANCELED = 99,
    GPG_ERR_FULLY_CANCELED = 198,
>>
    The codes next to them are ordinary errors, [GPG_ERR_MAC_ALGO = 197]
    for one. *)
Definition GPG_ERR_NO_ERROR : Z := 0.
Definition GPG_ERR_CANCELED : Z := 99.
Definition GPG_ERR_FULLY_CANCELED : Z := 198.

Definition gpgme_err_make (source code : Z) : Z :=
  if code =? GPG_ERR_NO_ERROR then GPG_ERR_NO_ERROR
  else Z.lor (Z.shiftl (Z.land source GPG_ERR_SOURCE_MASK)
                       GPG_ERR_SOURCE_SHIFT)
             (Z.land code GPG_ERR_CODE_MASK).

Definition gpgme_err_code (err : Z) : Z :=
  Z.land err GPG_ERR_CODE_MASK.

Definition gpgme_err_source (err : Z) : Z :=
  Z.land (Z.shiftr err GPG_ERR_SOURCE_SHIFT) GPG_ERR_SOURCE_MASK.

(** Modelled from the spec: the collaborator's message renderer
    [gpgme_strerror_r (err, buf, buflen)], which is not part of this
    repository.  It copies the description of [err] into the caller's
    buffer, as much of it as fits ("truncated, not overflowed"), and
    terminates the buffer.  The description table itself,
    [gpgme_strerror], is a parameter of the model; its entry for [err]
    is the C string [literal (gpgme_strerror err)]. *)
Section Renderer.
Variable gpgme_strerror : Z -> list byte.

Definition gpgme_strerror_r (err : Z) (buf : list byte) (buflen : nat)
  : option (list byte) :=
  let errstr := CString.literal (gpgme_strerror err) in
  match CString.strlen errstr 0 with
  | None => None
  | Some len =>
      let errstr_len := S len in
      let cpy_len := Nat.min errstr_len buflen in
      match CString.memcpy buf errstr cpy_len with
      | None => None
      | Some buf1 =>
          if (buflen =? 0)%nat then Some buf1
          else CString.store buf1 (buflen - 1) CString.NUL
      end
  end.
End Renderer.

End GpgError.

(* ===================================================================== *)
(** ** [GpgME::Error] (src/error.cpp) *)
(* ===================================================================== *)

Module Error.
Import GpgError.

(** The class holds the encoded value [mErr] (an [unsigned int]) and the
    lazily rendered text [mMessage] (a [mutable std::string]). *)
Record Error : Type := mkError {
  mErr : Z;
  mMessage : list byte
}.

(** [Error(unsigned int e = 0)]: the message starts out empty. *)
Definition Error_ctor (e : Z) : Error := mkError e [].

Definition encodedError (e : Error) : Z := mErr e.

(** [int Error::code() const] *)
Definition code (e : Error) : Z := gpgme_err_code (mErr e).

(** [int Error::sourceID() const] *)
Definition sourceID (e : Error) : Z := gpgme_err_source (mErr e).

(** [bool Error::isSuccess() const] *)
Definition isSuccess (e : Error) : bool :=
  code e =? GPG_ERR_NO_ERROR.

(** [bool Error::isCanceled() const] *)
Definition isCanceled (e : Error) : bool :=
  (code e =? GPG_ERR_CANCELED) || (code e =? GPG_ERR_FULLY_CANCELED).

(** [bool Error::isError() const] *)
Definition isError (e : Error) : bool :=
  negb (isSuccess e) && negb (isCanceled e).

(** [static Error Error::fromCode(unsigned int err, unsigned int src)] *)
Definition fromCode (err src : Z) : Error :=
  Error_ctor (gpgme_err_make src err).

(** [char buffer[1024]] of [format_error]. *)
Definition buffer_size : nat := 1024.

(** An automatic array is not initialised: its bytes are whatever
    [fill] says. *)
Definition uninitialized (fill : nat -> byte) (size : nat) : list byte :=
  map fill (seq 0 size).

Section Message.
Variable gpgme_strerror : Z -> list byte.

(** [format_error] up to and including
    [buffer[ sizeof buffer - 1 ] = '\0']: the contents of [buffer]. *)
Definition format_error_buffer (fill : nat -> byte) (err : Z)
  : option (list byte) :=
  let buffer := uninitialized fill buffer_size in
  match gpgme_strerror_r gpgme_strerror err buffer buffer_size with
  | None => None
  | Some buffer1 => CString.store buffer1 (buffer_size - 1) CString.NUL
  end.

(** [static void format_error(gpgme_error_t err, std::string &str)];
    the string assigned to [str] by [str = buffer] is the result. *)
Definition format_error (fill : nat -> byte) (err : Z)
  : option (list byte) :=
  match format_error_buffer fill err with
  | None => None
  | Some buffer => CString.string_of_c buffer
  end.

(** [const char *Error::asString() const]: the text returned and the
    object afterwards ([mMessage] is [mutable]). *)
Definition asString (fill : nat -> byte) (e : Error)
  : option (list byte * Error) :=
  match mMessage e with
  | [] =>
      match format_error fill (mErr e) with
      | None => None
      | Some message => Some (message, mkError (mErr e) message)
      end
  | _ :: _ => Some (mMessage e, e)
  end.

(** [std::string Error::asStdString() const] *)
Definition asStdString (fill : nat -> byte) (e : Error)
  : option (list byte) :=
  format_error fill (mErr e).

(** A sequence of [asString] calls on one object, each with its own
    stack contents: the texts returned, in order, and the object at
    the end. *)
Fixpoint asString_calls (fills : list (nat -> byte)) (e : Error)
  : option (list (list byte) * Error) :=
  match fills with
  | [] => Some ([], e)
  | fill :: later =>
      match asString fill e with
      | None => None
      | Some (text, e1) =>
          match asString_calls later e1 with
          | None => None
          | Some (texts, e2) => Some (text :: texts, e2)
          end
      end
  end.
End Message.

(** The description of an encoded value, as a text, and the text every
    rendering of it yields: the description cut to what fits the buffer
    together with its terminator. *)
Definition description (gpgme_strerror : Z -> list byte) (v : Z)
  : list byte :=
  CString.c_text (gpgme_strerror v).

Definition rendered (gpgme_strerror : Z -> list byte) (v : Z)
  : list byte :=
  firstn (buffer_size - 1) (description gpgme_strerror v).

(** An object made by the constructor and then only used through
    [asString] holds either no text yet or the rendered text. *)
Definition memo_ok (gpgme_strerror : Z -> list byte) (e : Error) : Prop :=
  mMessage e = [] \/ mMessage e = rendered gpgme_strerror (mErr e).

(** A (code, source) pair fits the two fields of the encoding. *)
Definition representable (err src : Z) : Prop :=
  0 <= err < GPG_ERR_CODE_DIM /\ 0 <= src < GPG_ERR_SOURCE_DIM.

End Error.

(* ===================================================================== *)
(** ** [GpgME::Flags<Enum, _Nb>] (src/flags.h) *)
(* ===================================================================== *)

Module FlagsH.

(** The only data member: [UnderlyingT mFlags]. *)
Record Flags : Type := mkFlags { mFlags : Z }.

(** Widths of [int] and [unsigned long] (LP64). *)
Definition int_bits : Z := 32.
Definition ulong_bits : Z := 64.

Section Template.
(** [W] is the width in bits of [UnderlyingT], an unsigned integer
    type; [Nb] is the template argument [_Nb].  A value of [Enum] is
    represented by its underlying integer. *)
Variable W : Z.
Variable Nb : Z.

(** Conversion of an integer to [UnderlyingT]. *)
Definition to_UnderlyingT (z : Z) : Z := z mod 2 ^ W.

(** Conversion of an integer to [unsigned long]. *)
Definition to_unsigned_long (z : Z) : Z := z mod 2 ^ ulong_bits.

(** [~x] on an operand of type [UnderlyingT]: a type narrower than
    [int] is promoted to [int] first, so the result is the negative
    [int] [-x - 1]; otherwise the complement is taken in
    [UnderlyingT]. *)
Definition bitwise_not (x : Z) : Z :=
  if W <? int_bits then Z.lnot x else to_UnderlyingT (Z.lnot x).

(** [std::bitset<_Nb>]: a value of [Nb] bits.  [bitset_flip] is its
    [operator~]; [to_ulong] throws [std::overflow_error] ([None])
    when the value does not fit an [unsigned long]. *)
Definition bitset_default : Z := 0.
Definition bitset_flip (b : Z) : Z := Z.lxor b (Z.ones Nb).
Definition to_ulong (b : Z) : option Z :=
  if b <? 2 ^ ulong_bits then Some b else None.

(** [static UnderlyingT toUnderlying(Enum flag)] *)
Definition toUnderlying (flag : Z) : Z := flag.

(** [Flags() = default] *)
Definition Flags_default : Flags := mkFlags 0.

(** [explicit Flags(Enum flag)] *)
Definition Flags_of_enum (flag : Z) : Flags :=
  mkFlags (toUnderlying flag).

(** [Flags(std::initializer_list<Enum> flags)] *)
Definition Flags_of_list (flags : list Z) : Flags :=
  mkFlags (fold_left (fun m flag => Z.lor m (toUnderlying flag)) flags 0).

Definition fromUnderlyingType (flags : Z) : Flags := mkFlags flags.
Definition toUnderlyingType (f : Flags) : Z := mFlags f.

(** [bool test(Enum flag) const] *)
Definition test (f : Flags) (flag : Z) : bool :=
  Z.land (mFlags f) (toUnderlying flag) =? toUnderlying flag.

(** [explicit operator bool() const] *)
Definition operator_bool (f : Flags) : bool := negb (mFlags f =? 0).

(** [operator|], [operator&], [operator^] in their three forms. *)
Definition operator_or (lhs rhs : Flags) : Flags :=
  mkFlags (Z.lor (mFlags lhs) (mFlags rhs)).
Definition operator_or_enum (lhs : Flags) (rhs : Z) : Flags :=
  mkFlags (Z.lor (mFlags lhs) (toUnderlying rhs)).
Definition enum_operator_or (lhs : Z) (rhs : Flags) : Flags :=
  mkFlags (Z.lor (toUnderlying lhs) (mFlags rhs)).

Definition operator_and (lhs rhs : Flags) : Flags :=
  mkFlags (Z.land (mFlags lhs) (mFlags rhs)).
Definition operator_and_enum (lhs : Flags) (rhs : Z) : Flags :=
  mkFlags (Z.land (mFlags lhs) (toUnderlying rhs)).
Definition enum_operator_and (lhs : Z) (rhs : Flags) : Flags :=
  mkFlags (Z.land (toUnderlying lhs) (mFlags rhs)).

Definition operator_xor (lhs rhs : Flags) : Flags :=
  mkFlags (Z.lxor (mFlags lhs) (mFlags rhs)).
Definition operator_xor_enum (lhs : Flags) (rhs : Z) : Flags :=
  mkFlags (Z.lxor (mFlags lhs) (toUnderlying rhs)).
Definition enum_operator_xor (lhs : Z) (rhs : Flags) : Flags :=
  mkFlags (Z.lxor (toUnderlying lhs) (mFlags rhs)).

(** The in-place forms; the result is the object afterwards, which is
    also the reference returned. *)
Definition operator_or_assign (this other : Flags) : Flags :=
  mkFlags (Z.lor (mFlags this) (mFlags other)).
Definition operator_or_assign_enum (this : Flags) (flag : Z) : Flags :=
  mkFlags (Z.lor (mFlags this) (toUnderlying flag)).
Definition operator_and_assign (this other : Flags) : Flags :=
  mkFlags (Z.land (mFlags this) (mFlags other)).
Definition operator_and_assign_enum (this : Flags) (flag : Z) : Flags :=
  mkFlags (Z.land (mFlags this) (toUnderlying flag)).
Definition operator_xor_assign (this other : Flags) : Flags :=
  mkFlags (Z.lxor (mFlags this) (mFlags other)).
Definition operator_xor_assign_enum (this : Flags) (flag : Z) : Flags :=
  mkFlags (Z.lxor (mFlags this) (toUnderlying flag)).

(** [Flags operator~() const]:
    [Flags(~mFlags & (~std::bitset<_Nb>()).to_ulong())].  The operands
    of [&] are brought to [unsigned long]; the result is converted
    back to [UnderlyingT] by the constructor. *)
Definition operator_not (f : Flags) : option Flags :=
  match to_ulong (bitset_flip bitset_default) with
  | None => None
  | Some mask =>
      Some (mkFlags
              (to_UnderlyingT
                 (Z.land (to_unsigned_long (bitwise_not (mFlags f)))
                         mask)))
  end.

(** [Flags &set(Enum flag, bool value = true)] *)
Definition set (this : Flags) (flag : Z) (value : bool) : option Flags :=
  if value then Some (operator_or_assign_enum this flag)
  else match operator_not (Flags_of_enum flag) with
       | None => None
       | Some mask => Some (operator_and_assign this mask)
       end.

(** [Flags &reset(Enum flag)] *)
Definition reset (this : Flags) (flag : Z) : option Flags :=
  match operator_not (Flags_of_enum flag) with
  | None => None
  | Some mask => Some (operator_and_assign this mask)
  end.

(** [Flags &reset()] *)
Definition reset_all (this : Flags) : Flags := mkFlags 0.

(** [operator==], [operator!=] *)
Definition operator_eq (lhs rhs : Flags) : bool :=
  mFlags lhs =? mFlags rhs.
Definition operator_ne (lhs rhs : Flags) : bool :=
  negb (operator_eq lhs rhs).

(** The stored integer is a value of [UnderlyingT]. *)
Definition is_value (f : Flags) : Prop := 0 <= mFlags f < 2 ^ W.
Definition is_enum (flag : Z) : Prop := 0 <= flag < 2 ^ W.

(** The template is instantiated with an unsigned type of at most 64
    bits and a bit count an [unsigned long] can hold. *)
Definition instantiable : Prop := 0 < W <= 64 /\ 0 <= Nb <= 64.

(** The stored integer has no bit at position [Nb] or above. *)
Definition within_Nb (f : Flags) : Prop := 0 <= mFlags f < 2 ^ Nb.

End Template.

(** [enum class TestFlag : unsigned int] and
    [using TestFlags = GpgME::Flags<TestFlag, 3>] of tests/t-flags.cpp. *)
Module TestFlag.
Definition A : Z := Z.shiftl 1 0.
Definition B : Z := Z.shiftl 1 1.
Definition C : Z := Z.shiftl 1 2.
Definition W : Z := 32.
Definition Nb : Z := 3.
End TestFlag.

(** [GPGMEPP_DEFINE_ENUM_FLAG_OPERATORS(FlagsType)] *)
Definition enum_or (lhs rhs : Z) : Flags :=
  operator_or_enum (Flags_of_enum lhs) rhs.
Definition enum_and (lhs rhs : Z) : Flags :=
  operator_and_enum (Flags_of_enum lhs) rhs.
Definition enum_xor (lhs rhs : Z) : Flags :=
  operator_xor_enum (Flags_of_enum lhs) rhs.

End FlagsH.

(* ===================================================================== *)
(** ** [_gpgmepp::split_into_string_views] (src/util.cpp) *)
(* ===================================================================== *)

Module Util.
Import CString.

(** A [std::string_view] into the input array: start offset and size. *)
Record string_view : Type := mk_string_view {
  sv_data : nat;
  sv_size : nat
}.

(** The characters a view refers to. *)
Definition view_text (mem : list byte) (v : string_view) : list byte :=
  firstn (sv_size v) (skipn (sv_data v) mem).

(** [result.emplace_back(s, segment_size)] under
    [if (const auto segment_size = ...)]. *)
Definition emplace_if_nonempty (result : list string_view)
           (s segment_size : nat) : list string_view :=
  if (segment_size =? 0)%nat then result
  else result ++ [mk_string_view s segment_size].

(** The [while] loop: the pointer [s] and [result] when [strchr] finds
    no further delimiter.  Each turn moves [s] past the delimiter found,
    so the distance to the end of the array decreases. *)
Function split_loop (mem : list byte) (delimiter : byte) (s : nat)
         (result : list string_view)
         {measure (fun p => length mem - p)%nat s}
  : option (nat * list string_view) :=
  match strchr mem s delimiter with
  | Some (Some segment_end) =>
      split_loop mem delimiter (S segment_end)
                 (emplace_if_nonempty result s (segment_end - s))
  | Some None => Some (s, result)
  | None => None
  end.
Proof.
  intros mem delimiter s _ found segment_end _ Hfound.
  assert (Hbound : forall suffix p e,
             strchr_from suffix p delimiter = Some (Some e) ->
             (p <= e < p + length suffix)%nat).
  { induction suffix as [| b rest IH]; intros p e Hs; simpl in Hs.
    - discriminate.
    - destruct (Byte.eqb b delimiter).
      + injection Hs as <-. simpl. lia.
      + destruct (Byte.eqb b NUL); [discriminate |].
        apply IH in Hs. simpl. lia. }
  unfold strchr in Hfound. apply Hbound in Hfound.
  rewrite length_skipn in Hfound. lia.
Defined.

(** [std::vector<std::string_view>
     split_into_string_views(const char *s, char delimiter)];
    [None] as input is the null pointer, [Some mem] a pointer to the
    start of the array [mem]. *)
Definition split_into_string_views (s : option (list byte))
           (delimiter : byte) : option (list string_view) :=
  match s with
  | None => Some []
  | Some mem =>
      match split_loop mem delimiter 0 [] with
      | None => None
      | Some (s1, result) =>
          match strlen mem s1 with
          | None => None
          | Some segment_size =>
              Some (emplace_if_nonempty result s1 segment_size)
          end
      end
  end.

(** The texts of the views returned. *)
Definition split_texts (s : option (list byte)) (delimiter : byte)
  : option (list (list byte)) :=
  let mem := match s with Some mem => mem | None => [] end in
  option_map (map (view_text mem)) (split_into_string_views s delimiter).

(** The segments of a text as the spec describes them: the maximal
    delimiter-free stretches, empty ones included, from left to
    right. *)
Fixpoint segments (delimiter : byte) (text : list byte)
  : list (list byte) :=
  match text with
  | [] => [[]]
  | b :: rest =>
      if Byte.eqb b delimiter then [] :: segments delimiter rest
      else match segments delimiter rest with
           | [] => [[b]]
           | seg :: segs => (b :: seg) :: segs
           end
  end.

Definition nonempty (seg : list byte) : bool :=
  negb (length seg =? 0)%nat.

(** Byte strings of the examples of tests/t-utils.cpp. *)
Definition bytes (text : string) : list byte := list_byte_of_string text.
Definition comma : byte := ","%byte.

End Util.

(* ===================================================================== *)
(** ** [operator<<] for [GpgME::Flags] (src/flags.h) *)
(* ===================================================================== *)

Module FlagsStream.
Import FlagsH.

(** What a formatted insertion of a string reads and changes of a
    [std::ostream]: whether the stream is [good()] (no [failbit],
    [badbit] or [eofbit] set), the field width [width()], the fill
    character [fill()], the adjustment [flags() & adjustfield], and the
    characters inserted so far.  The stream buffer is taken to accept
    every character, as that of a string stream does, so that no error
    arises during an insertion; the locale is taken to widen ['0'] and
    ['1'] to themselves, as the locales of the standard library do. *)
Inductive adjustfield : Type :=
| adjust_unset | adjust_left | adjust_right | adjust_internal.

Record ostream : Type := mkOstream {
  good : bool;
  width : Z;
  fill : byte;
  adjust : adjustfield;
  inserted : list byte
}.

(** The padding of a formatted insertion: a sequence shorter than the
    field width is filled up to it, behind its characters when the
    adjustment is [left] and before them otherwise. *)
Definition padding (os : ostream) (seq : list byte) : list byte :=
  repeat (fill os) (Z.to_nat (width os - Z.of_nat (length seq))).

Definition padded (os : ostream) (seq : list byte) : list byte :=
  match adjust os with
  | adjust_left => seq ++ padding os seq
  | _ => padding os seq ++ seq
  end.

(** [os << str] for a [std::string], a formatted output function: the
    sentry lets it write only on a good stream; then the padded
    sequence is inserted and [os.width(0)] is called.  On a stream that
    is not good nothing is inserted and the stream stays as it is, not
    good. *)
Definition insert_string (os : ostream) (str : list byte) : ostream :=
  if good os
  then mkOstream true 0 (fill os) (adjust os) (inserted os ++ padded os str)
  else os.

Section Template.
Variable Nb : Z.

(** [std::bitset<_Nb>(unsigned long long val)]: the low [min(_Nb, 64)]
    bits of [val]; the other positions are zero. *)
Definition bitset_of_ullong (val : Z) : Z :=
  Z.land (val mod 2 ^ 64) (Z.ones (Z.min Nb 64)).

(** The string of a [std::bitset<_Nb>]: [_Nb] characters, the one for
    the highest position first, ['1'] for a set bit and ['0'] for a
    clear one. *)
Definition digit (bit : bool) : byte :=
  if bit then "1"%byte else "0"%byte.

Definition bitset_to_string (b : Z) : list byte :=
  map (fun p => digit (Z.testbit b (Nb - 1 - Z.of_nat p)))
      (seq 0 (Z.to_nat Nb)).

(** [os << bitset]: the string of the bitset is inserted as a string
    is. *)
Definition insert_bitset (os : ostream) (b : Z) : ostream :=
  insert_string os (bitset_to_string b).

(** [std::ostream &operator<<(std::ostream &os,
                              const Flags<Enum, _Nb> &flags)]:
    [os << std::bitset<_Nb>(flags.toUnderlyingType())], and [os] is
    returned. *)
Definition operator_shl (os : ostream) (flags : Flags) : ostream :=
  insert_bitset os (bitset_of_ullong (toUnderlyingType flags)).

End Template.

End FlagsStream.

(* ===================================================================== *)
(** ** Vocabulary for the views of [split_into_string_views] *)
(* ===================================================================== *)

Module UtilViews.
Import CString Util.

(** The texts joined with one delimiter between neighbours. *)
Fixpoint join (delimiter : byte) (texts : list (list byte)) : list byte :=
  match texts with
  | [] => []
  | [text] => text
  | text :: later => text ++ delimiter :: join delimiter later
  end.

(** The views lie in the array from offset [lo] on, one after the other:
    each has a positive size, is directly followed by a delimiter or by
    a NUL, and the next one starts behind that byte. *)
Fixpoint laid_out (mem : list byte) (delimiter : byte) (lo : nat)
         (views : list string_view) : Prop :=
  match views with
  | [] => True
  | v :: later =>
      (lo <= sv_data v)%nat /\ (0 < sv_size v)%nat /\
      (nth_error mem (sv_data v + sv_size v) = Some delimiter \/
       nth_error mem (sv_data v + sv_size v) = Some NUL) /\
      laid_out mem delimiter (sv_data v + sv_size v + 1) later
  end.

End UtilViews.

(* ===================================================================== *)
(** ** [StringsToCStrings] (src/util.cpp) *)
(* ===================================================================== *)

Module StringsToCStringsH.

(** A [const char *] is the character array it points to, [None] the
    null pointer. *)
Definition c_pointer : Type := option (list byte).

(** The members: [std::vector<std::string> m_strings] and the lazily
    filled [mutable std::vector<const char *> m_cstrings]. *)
Record StringsToCStrings : Type := mkStringsToCStrings {
  m_strings : list (list byte);
  m_cstrings : list c_pointer
}.

(** [std::string::c_str]: the characters followed by a NUL. *)
Definition c_str (s : list byte) : list byte := CString.literal s.

(** [StringsToCStrings::StringsToCStrings(const std::vector<std::string>& v)] *)
Definition StringsToCStrings_ctor (v : list (list byte))
  : StringsToCStrings :=
  mkStringsToCStrings v [].

(** [const char **StringsToCStrings::c_strs() const]: the array returned
    and the object afterwards. *)
Definition c_strs (this : StringsToCStrings)
  : list c_pointer * StringsToCStrings :=
  match m_cstrings this with
  | [] =>
      let cstrings :=
        (map (fun s => Some (c_str s)) (m_strings this)) ++ [None] in
      (cstrings, mkStringsToCStrings (m_strings this) cstrings)
  | _ :: _ => (m_cstrings this, this)
  end.

(** [calls] calls of [c_strs] in a row: the arrays returned and the
    object at the end. *)
Fixpoint c_strs_calls (calls : nat) (this : StringsToCStrings)
  : list (list c_pointer) * StringsToCStrings :=
  match calls with
  | O => ([], this)
  | S later =>
      let (array, this1) := c_strs this in
      let (arrays, this2) := c_strs_calls later this1 in
      (array :: arrays, this2)
  end.

(** What a consumer of a null-terminated pointer array sees: the entries
    before the first null pointer; [None] when the array holds no null
    pointer and the consumer would run off it. *)
Fixpoint entries_before_null (array : list c_pointer)
  : option (list (list byte)) :=
  match array with
  | [] => None
  | None :: _ => Some []
  | Some chars :: later =>
      option_map (cons (CString.c_text chars)) (entries_before_null later)
  end.

End StringsToCStringsH.

(* ===================================================================== *)
(** ** The string comparators of src/global.h *)
(* ===================================================================== *)

Module Global.

(** [std::strcmp]: the bytes are compared as [unsigned char] up to the
    first difference or the terminator; the result is negative, zero or
    positive (here the difference of the two bytes).  [None] is a read
    outside an array. *)
Fixpoint strcmp (s1 s2 : list byte) : option Z :=
  match s1, s2 with
  | b1 :: rest1, b2 :: rest2 =>
      if Byte.eqb b1 b2
      then if Byte.eqb b1 CString.NUL then Some 0 else strcmp rest1 rest2
      else Some (Z.of_N (Byte.to_N b1) - Z.of_N (Byte.to_N b2))
  | _, _ => None
  end.

(** [inline int _gpgmepp_strcmp(const char *s1, const char *s2)] *)
Definition _gpgmepp_strcmp (s1 s2 : option (list byte)) : option Z :=
  match s1 with
  | Some a =>
      match s2 with
      | Some b => strcmp a b
      | None => Some 1
      end
  | None =>
      match s2 with
      | Some _ => Some (-1)
      | None => Some 0
      end
  end.

(** The functor [_GPGMEPP_MAKE_STRCMP] generates, called with two
    [const char] pointers: [Op<int>()(cmp, 0)] with [cmp] the result of
    [_gpgmepp_strcmp]. *)
Definition strcmp_functor (Op : Z -> Z -> bool)
           (lhs rhs : option (list byte)) : option bool :=
  option_map (fun cmp => Op cmp 0) (_gpgmepp_strcmp lhs rhs).

(** The overload for two [std::string]: compares their [c_str()]. *)
Definition strcmp_functor_string (Op : Z -> Z -> bool)
           (lhs rhs : list byte) : option bool :=
  strcmp_functor Op (Some (CString.literal lhs))
                 (Some (CString.literal rhs)).

(** [std::less<int>] and [std::equal_to<int>]. *)
Definition std_less : Z -> Z -> bool := Z.ltb.
Definition std_equal_to : Z -> Z -> bool := Z.eqb.

(** A pointer argument is null or points to a terminated array. *)
Definition c_string_ok (s : option (list byte)) : Prop :=
  match s with
  | Some chars => In CString.NUL chars
  | None => True
  end.

(** What the comparison looks at: nothing for the null pointer, else
    the text before the terminator. *)
Definition text_of (s : option (list byte)) : option (list byte) :=
  option_map CString.c_text s.

End Global.

(* ===================================================================== *)
(** ** Command-line parsing of the test programs (tests/run-*.cpp) *)
(* ===================================================================== *)

Module Cli.
Import CString.

(** [std::strncmp]: like [strcmp], over at most [n] characters. *)
Fixpoint strncmp (s1 s2 : list byte) (n : nat) {struct n} : option Z :=
  match n with
  | O => Some 0
  | S n' =>
      match s1, s2 with
      | b1 :: rest1, b2 :: rest2 =>
          if Byte.eqb b1 b2
          then if Byte.eqb b1 NUL then Some 0 else strncmp rest1 rest2 n'
          else Some (Z.of_N (Byte.to_N b1) - Z.of_N (Byte.to_N b2))
      | _, _ => None
      end
  end.

(** An element of [argv] is given by its text; the array it points to is
    the text followed by the terminator.  [!strcmp( *argv, lit)] and
    [!strncmp( *argv, lit, n)] for a string literal [lit]. *)
Definition arg_is (arg : list byte) (lit : string) : bool :=
  match Global.strcmp (literal arg) (literal (Util.bytes lit)) with
  | Some r => r =? 0
  | None => false
  end.

Definition arg_starts (arg : list byte) (lit : string) (n : nat) : bool :=
  match strncmp (literal arg) (literal (Util.bytes lit)) n with
  | Some r => r =? 0
  | None => false
  end.

(** The text of a C string holds no terminator. *)
Definition is_text (arg : list byte) : bool :=
  forallb (fun b => negb (Byte.eqb b NUL)) arg.

(** The argument begins with two dashes. *)
Definition dashed (arg : list byte) : bool :=
  match arg with
  | c1 :: c2 :: _ => Byte.eqb c1 "-"%byte && Byte.eqb c2 "-"%byte
  | _ => false
  end.

(** A function that may leave through [show_usage], which ends the
    process with [exit(ex)]. *)
Inductive outcome (A : Type) : Type :=
| Exit (status : Z)
| Return (value : A).
Arguments Exit {A} status.
Arguments Return {A} value.

End Cli.

Module RunCreatekey.
Import Cli.

(** [enum Command] and [struct Options]. *)
Inductive Command : Type := CreateKey | CreateSubkey.

Record Options : Type := mkOptions {
  command : Command;
  userid : list byte;
  fingerprint : list byte;
  flags : Z
}.

Section CreationFlags.
(** The values of [Context::CreationFlags], declared in context.h,
    which is not among the sources: parameters of the model. *)
Variable CreateUseDefaults : Z.
Variable CreateCertify : Z.
Variable CreateSign : Z.
Variable CreateEncrypt : Z.
Variable CreateAuthenticate : Z.
Variable CreateGroupKey : Z.
Variable CreateNoPassword : Z.
Variable CreateForce : Z.

(** [Options options;] with the default member initialisers. *)
Definition default_options : Options :=
  mkOptions CreateKey [] [] CreateUseDefaults.

Definition set_command (options : Options) (c : Command) : Options :=
  mkOptions c (userid options) (fingerprint options) (flags options).

(** [options.flags |= flag] *)
Definition or_flags (options : Options) (flag : Z) : Options :=
  mkOptions (command options) (userid options) (fingerprint options)
            (Z.lor (flags options) flag).

(** The [while (argc && last_argc != argc)] loop of [parseCommandLine]
    over the arguments not yet consumed: what is left of [argv] and the
    options when the loop ends.  An argument that matches no branch
    leaves [argc] as it was, which ends the loop. *)
Fixpoint option_loop (argv : list (list byte)) (options : Options)
  : outcome (list (list byte) * Options) :=
  match argv with
  | [] => Return ([], options)
  | arg :: rest =>
      if arg_is arg "--" then Return (rest, options)
      else if arg_is arg "--help" then Exit 0
      else if arg_is arg "--addkey"
           then option_loop rest (set_command options CreateSubkey)
      else if arg_is arg "--certify"
           then option_loop rest (or_flags options CreateCertify)
      else if arg_is arg "--sign"
           then option_loop rest (or_flags options CreateSign)
      else if arg_is arg "--encrypt"
           then option_loop rest (or_flags options CreateEncrypt)
      else if arg_is arg "--authenticate"
           then option_loop rest (or_flags options CreateAuthenticate)
      else if arg_is arg "--group"
           then option_loop rest (or_flags options CreateGroupKey)
      else if arg_is arg "--unprotected"
           then option_loop rest (or_flags options CreateNoPassword)
      else if arg_is arg "--force"
           then option_loop rest (or_flags options CreateForce)
      else if arg_starts arg "--" 2 then Exit 1
      else Return (argv, options)
  end.

(** [static Options parseCommandLine(int argc, char **argv)]; [argv]
    holds the [argc] arguments, the program name first. *)
Definition parseCommandLine (argv : list (list byte)) : outcome Options :=
  let args := match argv with [] => [] | _ :: rest => rest end in
  match option_loop args default_options with
  | Exit status => Exit status
  | Return (remaining, options) =>
      match remaining with
      | [operand] =>
          match command options with
          | CreateKey =>
              Return (mkOptions (command options) operand
                                (fingerprint options) (flags options))
          | CreateSubkey =>
              Return (mkOptions (command options) (userid options)
                                operand (flags options))
          end
      | _ => Exit 1
      end
  end.

(** The options the loop knows, by name, with their texts and what each
    does to the options. *)
Inductive Switch : Type :=
| Addkey | Certify | Sign | Encrypt | Authenticate | Group | Unprotected
| Force.

Definition switch_text (sw : Switch) : list byte :=
  match sw with
  | Addkey => Util.bytes "--addkey"
  | Certify => Util.bytes "--certify"
  | Sign => Util.bytes "--sign"
  | Encrypt => Util.bytes "--encrypt"
  | Authenticate => Util.bytes "--authenticate"
  | Group => Util.bytes "--group"
  | Unprotected => Util.bytes "--unprotected"
  | Force => Util.bytes "--force"
  end.

Definition switch_flag (sw : Switch) : Z :=
  match sw with
  | Addkey => 0
  | Certify => CreateCertify
  | Sign => CreateSign
  | Encrypt => CreateEncrypt
  | Authenticate => CreateAuthenticate
  | Group => CreateGroupKey
  | Unprotected => CreateNoPassword
  | Force => CreateForce
  end.

Definition is_Addkey (sw : Switch) : bool :=
  match sw with Addkey => true | _ => false end.

Definition apply_switch (options : Options) (sw : Switch) : Options :=
  match sw with
  | Addkey => set_command options CreateSubkey
  | _ => or_flags options (switch_flag sw)
  end.

(** What accepting the switches and the operand amounts to: the command
    is [CreateSubkey] exactly when [--addkey] was among the switches,
    the operand went to the field of that command and the other field is
    empty, and the flags are the defaults and the flags of all switches,
    bit by bit. *)
Definition parsed_as (switches : list Switch) (operand : list byte)
           (options : Options) : Prop :=
  command options =
    (if existsb is_Addkey switches then CreateSubkey else CreateKey) /\
  (command options = CreateKey ->
   userid options = operand /\ fingerprint options = []) /\
  (command options = CreateSubkey ->
   fingerprint options = operand /\ userid options = []) /\
  (forall i, Z.testbit (flags options) i =
             Z.testbit CreateUseDefaults i ||
             existsb (fun sw => Z.testbit (switch_flag sw) i) switches).

End CreationFlags.

End RunCreatekey.

Module RunGenrandom.
Import Cli.

Definition UINT_MAX : Z := 2 ^ 32 - 1.

(** A decimal digit and its value. *)
Definition is_digit (b : byte) : bool :=
  (48 <=? Byte.to_N b)%N && (Byte.to_N b <=? 57)%N.

Definition digit_value (b : byte) : Z := Z.of_N (Byte.to_N b) - 48.

(** The value of the leading run of decimal digits. *)
Fixpoint accumulate (s : list byte) (acc : Z) : Z :=
  match s with
  | [] => acc
  | b :: rest =>
      if is_digit b then accumulate rest (10 * acc + digit_value b)
      else acc
  end.

(** [std::from_chars (first, last, value)] for [unsigned int] in base
    10: the longest leading run of digits is the number, with no sign
    and no white space before it; no digit at the start is
    [invalid_argument], a number above [UINT_MAX] is
    [result_out_of_range]. *)
Inductive errc : Type := errc_ok | invalid_argument | result_out_of_range.

Definition from_chars (s : list byte) : errc * option Z :=
  match s with
  | [] => (invalid_argument, None)
  | b :: _ =>
      if is_digit b
      then let parsed := accumulate s 0 in
           if parsed <=? UINT_MAX then (errc_ok, Some parsed)
           else (result_out_of_range, None)
      else (invalid_argument, None)
  end.

(** [template<typename IntegerType> static std::optional<IntegerType>
     parseNumberArgument(std::string_view s)] at [unsigned int]: only
    the error code of [from_chars] is looked at. *)
Definition parseNumberArgument (s : list byte) : option Z :=
  match from_chars s with
  | (errc_ok, Some value) => Some value
  | _ => None
  end.

(** The number a run of decimal digits denotes. *)
Definition decimal_value (digits : list byte) : Z :=
  fold_left (fun acc b => 10 * acc + digit_value b) digits 0.

(** The text is empty or begins with something that is no digit. *)
Definition no_digit_ahead (rest : list byte) : bool :=
  match rest with
  | [] => true
  | c :: _ => negb (is_digit c)
  end.

(** [enum Command] *)
Inductive Command : Type := None_ | Number | Bytes | ZBase32.

Definition Command_eqb (a b : Command) : bool :=
  match a, b with
  | None_, None_ | Number, Number | Bytes, Bytes | ZBase32, ZBase32 => true
  | _, _ => false
  end.

(** The [while (argc && last_argc != argc)] loop of [main]: what is left
    of [argv], [command] and [needsNumber] when the loop ends. *)
Fixpoint command_loop (argv : list (list byte)) (command : Command)
         (needsNumber : bool)
  : outcome (list (list byte) * Command * bool) :=
  match argv with
  | [] => Return ([], command, needsNumber)
  | arg :: rest =>
      if arg_is arg "--" then Return (rest, command, needsNumber)
      else if arg_is arg "--help" then Exit 0
      else if arg_is arg "--number" then command_loop rest Number true
      else if arg_is arg "--bytes" then command_loop rest Bytes true
      else if arg_is arg "--zbase32" then command_loop rest ZBase32 false
      else if arg_starts arg "--" 2 then Exit 1
      else Return (argv, command, needsNumber)
  end.

(** [main] up to the call of [GpgME::initializeLibrary()]: the command
    to run and [number], or the exit through [show_usage]. *)
Definition main_arguments (argv : list (list byte))
  : outcome (Command * Z) :=
  let args := match argv with [] => [] | _ :: rest => rest end in
  match command_loop args None_ false with
  | Exit status => Exit status
  | Return (remaining, command, needsNumber) =>
      if Command_eqb command None_ then Exit 1
      else if (needsNumber && negb (length remaining =? 1)%nat)
              || (negb needsNumber && negb (length remaining =? 0)%nat)
      then Exit 1
      else if needsNumber
      then match remaining with
           | arg :: _ =>
               match parseNumberArgument arg with
               | Some number => Return (command, number)
               | None => Exit 1
               end
           | [] => Exit 1
           end
      else Return (command, 0)
  end.

(** The three command switches, their texts and the command each
    selects. *)
Inductive Switch : Type := SwNumber | SwBytes | SwZBase32.

Definition switch_text (sw : Switch) : list byte :=
  match sw with
  | SwNumber => Util.bytes "--number"
  | SwBytes => Util.bytes "--bytes"
  | SwZBase32 => Util.bytes "--zbase32"
  end.

Definition switch_command (sw : Switch) : Command :=
  match sw with
  | SwNumber => Number
  | SwBytes => Bytes
  | SwZBase32 => ZBase32
  end.

Definition switch_needsNumber (sw : Switch) : bool :=
  match sw with
  | SwNumber | SwBytes => true
  | SwZBase32 => false
  end.

End RunGenrandom.

(* ===================================================================== *)
(** ** Bit-level facts about [Z] used throughout *)
(* ===================================================================== *)

Module Bits.

Lemma testbit_ones (n i : Z) :
  0 <= n -> Z.testbit (Z.ones n) i = (0 <=? i) && (i <? n).
Proof.
  intros Hn.
  destruct (Z.leb_spec 0 i) as [Hi | Hi]; simpl.
  - destruct (Z.ltb_spec i n).
    + apply Z.ones_spec_low; lia.
    + apply Z.ones_spec_high; lia.
  - apply Z.testbit_neg_r; lia.
Qed.

Lemma testbit_high (n p i : Z) :
  0 <= p -> 0 <= n < 2 ^ p -> p <= i -> Z.testbit n i = false.
Proof.
  intros Hp Hn Hi.
  rewrite <- (Z.mod_small n (2 ^ p)) by exact Hn.
  apply Z.mod_pow2_bits_high; lia.
Qed.

Lemma testbit_mod (n p i : Z) :
  0 <= p -> Z.testbit (n mod 2 ^ p) i = (i <? p) && Z.testbit n i.
Proof.
  intros Hp.
  destruct (Z.ltb_spec i p) as [Hi | Hi]; simpl.
  - destruct (Z.leb_spec 0 i).
    + apply Z.mod_pow2_bits_low; lia.
    + rewrite !Z.testbit_neg_r by lia. reflexivity.
  - apply Z.mod_pow2_bits_high; lia.
Qed.

Lemma testbit_lnot (n i : Z) :
  Z.testbit (Z.lnot n) i = (0 <=? i) && negb (Z.testbit n i).
Proof.
  destruct (Z.leb_spec 0 i); simpl.
  - apply Z.lnot_spec; lia.
  - apply Z.testbit_neg_r; lia.
Qed.

Lemma testbit_shiftl (n s i : Z) :
  Z.testbit (Z.shiftl n s) i = (0 <=? i) && Z.testbit n (i - s).
Proof.
  destruct (Z.leb_spec 0 i); simpl.
  - apply Z.shiftl_spec; lia.
  - apply Z.testbit_neg_r; lia.
Qed.

Lemma testbit_shiftr (n s i : Z) :
  Z.testbit (Z.shiftr n s) i = (0 <=? i) && Z.testbit n (i + s).
Proof.
  destruct (Z.leb_spec 0 i); simpl.
  - apply Z.shiftr_spec; lia.
  - apply Z.testbit_neg_r; lia.
Qed.

(** A non-negative integer all of whose bits from [p] on are clear is
    below [2 ^ p]. *)
Lemma bounded_of_bits (n p : Z) :
  0 <= p -> 0 <= n ->
  (forall i, p <= i -> Z.testbit n i = false) ->
  n < 2 ^ p.
Proof.
  intros Hp Hn Hbits.
  destruct (Z.eq_dec n 0) as [-> | Hnz].
  - apply Z.pow_pos_nonneg; lia.
  - assert (Hpos : 0 < n) by lia.
    destruct (Z.lt_ge_cases (Z.log2 n) p) as [Hlt | Hge].
    + apply Z.log2_lt_pow2; assumption.
    + pose proof (Z.bit_log2 n Hpos) as Hb.
      rewrite (Hbits _ Hge) in Hb. discriminate.
Qed.

(** Two integers with the same bits at every non-negative position are
    equal. *)
Ltac by_bits i :=
  apply Z.bits_inj'; intros i ?.

End Bits.

(* ===================================================================== *)
(** ** Properties of [GpgME::Error]: classification and packing *)
(* ===================================================================== *)

Module ErrorFacts.
Import GpgError Error.

Lemma code_mask_ones : GPG_ERR_CODE_MASK = Z.ones 16.
Proof. reflexivity. Qed.

Lemma source_mask_ones : GPG_ERR_SOURCE_MASK = Z.ones 7.
Proof. reflexivity. Qed.

(** The code field of a packed value is the code that went in. *)
Lemma err_code_make (source c : Z) :
  0 <= c < GPG_ERR_CODE_DIM ->
  gpgme_err_code (gpgme_err_make source c) = c.
Proof.
  intros Hc. unfold gpgme_err_code, gpgme_err_make.
  destruct (Z.eqb_spec c GPG_ERR_NO_ERROR) as [-> | Hne]; [reflexivity |].
  rewrite code_mask_ones, source_mask_ones.
  unfold GPG_ERR_SOURCE_SHIFT, GPG_ERR_CODE_DIM in *.
  Bits.by_bits i.
  rewrite !Z.land_spec, Z.lor_spec, Z.land_spec, Bits.testbit_shiftl.
  rewrite !Bits.testbit_ones by lia.
  destruct (Z.ltb_spec i 16) as [Hi | Hi].
  - rewrite (Z.testbit_neg_r _ (i - 24)) by lia.
    replace (0 <=? i) with true by (symmetry; apply Z.leb_le; lia).
    destruct (Z.testbit c i); reflexivity.
  - rewrite (Bits.testbit_high c 16 i) by lia.
    rewrite !andb_false_r. reflexivity.
Qed.

(** The source field of a packed value with a code other than "no
    error" is the source that went in. *)
Lemma err_source_make (source c : Z) :
  0 <= c < GPG_ERR_CODE_DIM -> c <> GPG_ERR_NO_ERROR ->
  0 <= source < GPG_ERR_SOURCE_DIM ->
  gpgme_err_source (gpgme_err_make source c) = source.
Proof.
  intros Hc Hne Hs. unfold gpgme_err_source, gpgme_err_make.
  destruct (Z.eqb_spec c GPG_ERR_NO_ERROR) as [-> | _]; [contradiction |].
  rewrite code_mask_ones, source_mask_ones.
  unfold GPG_ERR_SOURCE_SHIFT, GPG_ERR_CODE_DIM, GPG_ERR_SOURCE_DIM in *.
  Bits.by_bits i.
  rewrite Z.land_spec, Bits.testbit_shiftr, Z.lor_spec, Z.land_spec,
    Bits.testbit_shiftl, Z.land_spec.
  rewrite !Bits.testbit_ones by lia.
  replace (i + 24 - 24) with i by lia.
  rewrite (Bits.testbit_high c 16 (i + 24)) by lia.
  destruct (Z.ltb_spec i 7) as [Hi | Hi].
  - replace (0 <=? i) with true by (symmetry; apply Z.leb_le; lia).
    replace (0 <=? i + 24) with true by (symmetry; apply Z.leb_le; lia).
    replace (i + 24 <? 16) with false by (symmetry; apply Z.ltb_ge; lia).
    destruct (Z.testbit source i); reflexivity.
  - rewrite (Bits.testbit_high source 7 i) by lia.
    rewrite !andb_false_r. reflexivity.
Qed.

(** C1. Every error value falls into exactly one of the three classes:
    of [isSuccess], [isCanceled] and [isError] one is true and the other
    two are false. *)
Theorem classification_exactly_one (e : Error) :
  (isSuccess e = true /\ isCanceled e = false /\ isError e = false) \/
  (isSuccess e = false /\ isCanceled e = true /\ isError e = false) \/
  (isSuccess e = false /\ isCanceled e = false /\ isError e = true).
Proof.
  unfold isError, isCanceled, isSuccess.
  destruct (Z.eqb_spec (code e) GPG_ERR_NO_ERROR) as [H0 | H0].
  - left. rewrite H0. repeat split; reflexivity.
  - right.
    destruct (Z.eqb_spec (code e) GPG_ERR_CANCELED) as [H1 | H1];
      destruct (Z.eqb_spec (code e) GPG_ERR_FULLY_CANCELED) as [H2 | H2];
      simpl; solve [ left; repeat split; reflexivity
                   | right; repeat split; reflexivity ].
Qed.




(** C7. [isCanceled()] is true exactly when the code is one of the two
    cancellation sentinels of the collaborator, "operation canceled",
    which is 99, or "fully canceled", which is 198, and for no other
    code: it is true exactly for the encoded values whose low sixteen
    bits are 99 or 198, whatever the bits above them. *)
Theorem isCanceled_iff (e : Error) :
  (isCanceled e = true <->
     code e = GPG_ERR_CANCELED \/ code e = GPG_ERR_FULLY_CANCELED) /\
  (GPG_ERR_CANCELED = 99 /\ GPG_ERR_FULLY_CANCELED = 198) /\
  (isCanceled e = true <->
     encodedError e mod 65536 = 99 \/ encodedError e mod 65536 = 198).
Proof.
  assert (Hcode : code e = encodedError e mod 65536).
  { unfold code, encodedError, gpgme_err_code.
    rewrite code_mask_ones, Z.land_ones by lia. reflexivity. }
  assert (Hiff : isCanceled e = true <-> code e = 99 \/ code e = 198).
  { unfold isCanceled. rewrite orb_true_iff, !Z.eqb_eq. reflexivity. }
  split; [exact Hiff |].
  split; [split; reflexivity |].
  rewrite <- Hcode. exact Hiff.
Qed.

End ErrorFacts.

(* ===================================================================== *)
(** ** Facts about C character arrays *)
(* ===================================================================== *)

Module CStringFacts.
Import CString.
Local Open Scope nat_scope.

Lemma byte_eqb_refl (b : byte) : Byte.eqb b b = true.
Proof. apply Byte.byte_dec_lb. reflexivity. Qed.

Lemma byte_eqb_spec (a b : byte) : reflect (a = b) (Byte.eqb a b).
Proof.
  destruct (Byte.eqb a b) eqn:Hab; constructor.
  - apply Byte.byte_dec_bl. exact Hab.
  - apply Byte.eqb_false. exact Hab.
Qed.

Lemma c_text_length_le (arr : list byte) :
  length (c_text arr) <= length arr.
Proof.
  induction arr as [| b rest IH]; simpl; [lia |].
  destruct (Byte.eqb b NUL); simpl; lia.
Qed.

Lemma c_text_no_NUL (arr : list byte) : ~ In NUL (c_text arr).
Proof.
  induction arr as [| b rest IH]; simpl; [tauto |].
  destruct (Byte.eqb b NUL) eqn:Hb; simpl; [tauto |].
  intros [-> | Hin]; [| exact (IH Hin)].
  rewrite byte_eqb_refl in Hb. discriminate.
Qed.

Lemma firstn_no_NUL (n : nat) (text : list byte) :
  ~ In NUL text -> ~ In NUL (firstn n text).
Proof.
  intros Hno Hin. apply Hno.
  rewrite <- (firstn_skipn n text). apply in_or_app. left. exact Hin.
Qed.

(** On an array that holds a NUL, [strlen] is the length of its text. *)
Lemma strlen_from_terminated (arr : list byte) :
  In NUL arr -> strlen_from arr = Some (length (c_text arr)).
Proof.
  induction arr as [| b rest IH]; simpl; [tauto |].
  intros Hin. destruct (Byte.eqb b NUL) eqn:Hb; [reflexivity |].
  destruct Hin as [-> | Hin].
  - rewrite byte_eqb_refl in Hb. discriminate.
  - rewrite (IH Hin). reflexivity.
Qed.

Lemma firstn_c_text (arr : list byte) :
  firstn (length (c_text arr)) arr = c_text arr.
Proof.
  induction arr as [| b rest IH]; simpl; [reflexivity |].
  destruct (Byte.eqb b NUL); simpl; [reflexivity |].
  rewrite IH. reflexivity.
Qed.

Lemma string_of_c_terminated (buf : list byte) :
  In NUL buf -> string_of_c buf = Some (c_text buf).
Proof.
  intros Hin. unfold string_of_c, strlen. simpl.
  rewrite (strlen_from_terminated buf Hin), firstn_c_text. reflexivity.
Qed.

Lemma c_text_literal (text : list byte) :
  c_text (literal text) = c_text text.
Proof.
  unfold literal.
  induction text as [| b rest IH]; simpl; [reflexivity |].
  destruct (Byte.eqb b NUL); [reflexivity |]. rewrite IH. reflexivity.
Qed.

Lemma literal_terminated (text : list byte) : In NUL (literal text).
Proof. unfold literal. apply in_or_app. right. left. reflexivity. Qed.

Lemma store_in_bounds (buf : list byte) (i : nat) (b : byte) :
  i < length buf ->
  store buf i b = Some (firstn i buf ++ b :: skipn (S i) buf).
Proof.
  intros Hi. unfold store.
  destruct (Nat.ltb_spec i (length buf)); [reflexivity | lia].
Qed.

Lemma store_length (buf buf' : list byte) (i : nat) (b : byte) :
  store buf i b = Some buf' -> length buf' = length buf.
Proof.
  unfold store. destruct (Nat.ltb_spec i (length buf)) as [Hi | Hi];
    [| discriminate].
  intros Hst.
  assert (buf' = firstn i buf ++ b :: skipn (S i) buf) as ->
      by congruence.
  rewrite length_app, length_firstn.
  change (length (b :: skipn (S i) buf))
    with (S (length (skipn (S i) buf))).
  rewrite length_skipn. lia.
Qed.

Lemma store_nth (buf buf' : list byte) (i : nat) (b : byte) :
  store buf i b = Some buf' -> nth_error buf' i = Some b.
Proof.
  unfold store. destruct (Nat.ltb_spec i (length buf)) as [Hi | Hi];
    [| discriminate].
  intros Hst.
  assert (buf' = firstn i buf ++ b :: skipn (S i) buf) as ->
      by congruence.
  rewrite nth_error_app2; rewrite length_firstn; [| lia].
  replace (i - Nat.min i (length buf)) with 0 by lia. reflexivity.
Qed.

(** Writing a NUL at [i] cuts the text of the array at [i]. *)
Lemma c_text_store_NUL (buf : list byte) (i : nat) :
  c_text (firstn i buf ++ NUL :: skipn (S i) buf) = firstn i (c_text buf).
Proof.
  revert i. induction buf as [| b rest IH]; intros [| j]; simpl;
    try reflexivity.
  destruct (Byte.eqb b NUL); [reflexivity |].
  simpl. rewrite <- IH. reflexivity.
Qed.

(** Copying the first [m] bytes of [src] over an array yields, within
    the first [n] text bytes, the text of [src], provided the copy
    covers these [n] bytes or reaches the terminator of [src]. *)
Lemma c_text_copy (src rest : list byte) (m n : nat) :
  m <= length src ->
  n <= m \/ length (c_text src) < m ->
  firstn n (c_text (firstn m src ++ rest)) = firstn n (c_text src).
Proof.
  revert m n. induction src as [| b tail IH]; intros m n Hm Hcov.
  - simpl in *. assert (m = 0) by lia. subst m.
    assert (n = 0) by lia. subst n. reflexivity.
  - destruct m as [| m'].
    + assert (n = 0) by lia. subst n. reflexivity.
    + simpl. destruct (Byte.eqb b NUL) eqn:Hb; [reflexivity |].
      destruct n as [| n']; [reflexivity |].
      simpl. f_equal. apply IH.
      * simpl in Hm. lia.
      * simpl in Hcov. rewrite Hb in Hcov. simpl in Hcov. lia.
Qed.

Lemma uninitialized_length (fill : nat -> byte) (size : nat) :
  length (Error.uninitialized fill size) = size.
Proof.
  unfold Error.uninitialized. rewrite length_map, length_seq. reflexivity.
Qed.

End CStringFacts.

(* ===================================================================== *)
(** ** Properties of [GpgME::Error]: the rendered message *)
(* ===================================================================== *)

Module MessageFacts.
Import CString CStringFacts GpgError Error.
Local Open Scope nat_scope.

Section Rendering.
Variable gpgme_strerror : Z -> list byte.

(** The renderer stays inside a buffer of [size] bytes and leaves in it
    a text that agrees with the description on the first [size - 1]
    bytes. *)
Lemma gpgme_strerror_r_fits (v : Z) (buf : list byte) (size : nat) :
  length buf = size -> 0 < size ->
  exists buf1,
    gpgme_strerror_r gpgme_strerror v buf size = Some buf1 /\
    length buf1 = size /\
    firstn (size - 1) (c_text buf1) =
      firstn (size - 1) (description gpgme_strerror v).
Proof.
  intros Hlen Hpos. unfold gpgme_strerror_r, strlen. simpl skipn.
  rewrite (strlen_from_terminated _ (literal_terminated _)).
  rewrite c_text_literal. fold (description gpgme_strerror v).
  set (cpy_len := Nat.min (S (length (description gpgme_strerror v))) size).
  pose proof (c_text_length_le (gpgme_strerror v)) as Hle.
  fold (description gpgme_strerror v) in Hle.
  assert (Hsrc : cpy_len <= length (literal (gpgme_strerror v))).
  { unfold literal. rewrite length_app. simpl. lia. }
  unfold memcpy.
  replace (cpy_len <=? length buf) with true
    by (symmetry; apply Nat.leb_le; lia).
  replace (cpy_len <=? length (literal (gpgme_strerror v))) with true
    by (symmetry; apply Nat.leb_le; lia).
  simpl andb. cbv iota.
  replace (size =? 0) with false by (symmetry; apply Nat.eqb_neq; lia).
  set (buf1 := firstn cpy_len (literal (gpgme_strerror v))
                 ++ skipn cpy_len buf).
  assert (Hlen1 : length buf1 = size).
  { unfold buf1. rewrite length_app, length_firstn, length_skipn. lia. }
  rewrite store_in_bounds by lia.
  eexists. split; [reflexivity |]. split.
  - rewrite length_app, length_firstn.
    change (length (NUL :: skipn (S (size - 1)) buf1))
      with (S (length (skipn (S (size - 1)) buf1))).
    rewrite length_skipn. lia.
  - rewrite c_text_store_NUL, firstn_firstn, Nat.min_id.
    unfold buf1. rewrite c_text_copy.
    + rewrite c_text_literal. reflexivity.
    + exact Hsrc.
    + rewrite c_text_literal. fold (description gpgme_strerror v). lia.
Qed.

Lemma buffer_size_pos : 0 < buffer_size.
Proof. unfold buffer_size. apply Nat.lt_0_succ. Qed.

(** The buffer of [format_error] after its last store. *)
Lemma format_error_buffer_spec (fill : nat -> byte) (v : Z) :
  exists buffer,
    format_error_buffer gpgme_strerror fill v = Some buffer /\
    length buffer = buffer_size /\
    nth_error buffer (buffer_size - 1) = Some NUL /\
    c_text buffer = firstn (buffer_size - 1) (description gpgme_strerror v).
Proof.
  unfold format_error_buffer.
  pose proof buffer_size_pos as Hpos.
  destruct (gpgme_strerror_r_fits v (uninitialized fill buffer_size)
              buffer_size (uninitialized_length _ _) Hpos)
    as (buf1 & -> & Hlen1 & Htext).
  revert Hpos Hlen1 Htext. generalize buffer_size.
  intros size Hpos Hlen1 Htext.
  destruct (store buf1 (size - 1) NUL) as [buffer |] eqn:Hst.
  - exists buffer. split; [reflexivity |].
    split; [rewrite (store_length _ _ _ _ Hst); exact Hlen1 |].
    split; [exact (store_nth _ _ _ _ Hst) |].
    rewrite store_in_bounds in Hst by lia.
    injection Hst as <-.
    rewrite c_text_store_NUL. exact Htext.
  - rewrite store_in_bounds in Hst by lia. discriminate.
Qed.

Lemma format_error_spec (fill : nat -> byte) (v : Z) :
  format_error gpgme_strerror fill v = Some (rendered gpgme_strerror v).
Proof.
  unfold format_error, rendered.
  destruct (format_error_buffer_spec fill v)
    as (buffer & -> & _ & Hnul & <-).
  apply string_of_c_terminated.
  apply nth_error_In with (n := buffer_size - 1). exact Hnul.
Qed.

Lemma asString_memo (fill : nat -> byte) (e : Error) :
  memo_ok gpgme_strerror e ->
  exists e1,
    asString gpgme_strerror fill e =
      Some (rendered gpgme_strerror (mErr e), e1) /\
    mErr e1 = mErr e /\ memo_ok gpgme_strerror e1.
Proof.
  intros Hok. unfold asString.
  destruct (mMessage e) as [| b rest] eqn:Hm.
  - rewrite format_error_spec. eexists. split; [reflexivity |].
    split; [reflexivity |]. right. reflexivity.
  - destruct Hok as [Hnil | Htext]; [congruence |].
    exists e. rewrite <- Htext, Hm. split; [reflexivity |].
    split; [reflexivity |]. right. exact Htext.
Qed.

Lemma asString_calls_memo (fills : list (nat -> byte)) (e : Error) :
  memo_ok gpgme_strerror e ->
  exists e1,
    asString_calls gpgme_strerror fills e =
      Some (repeat (rendered gpgme_strerror (mErr e)) (length fills), e1) /\
    mErr e1 = mErr e.
Proof.
  revert e. induction fills as [| fill later IH]; intros e Hok; simpl.
  - exists e. split; reflexivity.
  - destruct (asString_memo fill e Hok) as (e1 & -> & Herr & Hok1).
    destruct (IH e1 Hok1) as (e2 & -> & Herr2).
    exists e2. rewrite Herr. split; [reflexivity | congruence].
Qed.

End Rendering.

(** C8. Whatever the description table and whatever the stack held
    before, rendering the message of an error value [v] stays inside a
    buffer of 1024 bytes whose last byte is NUL; the text obtained is the
    description cut to at most 1023 bytes, it holds no NUL, and it is
    the same at every call: [asStdString] renders it afresh each time,
    and any number of [asString] calls on an object made by the
    constructor return it every time, memoized or not. *)
Theorem message_bounded_and_stable
        (gpgme_strerror : Z -> list byte) (v : Z) :
  (buffer_size = 1024) /\
  (forall fill, exists buffer,
      format_error_buffer gpgme_strerror fill v = Some buffer /\
      length buffer = buffer_size /\
      nth_error buffer (buffer_size - 1) = Some NUL /\
      string_of_c buffer = Some (rendered gpgme_strerror v)) /\
  (forall fill,
      format_error gpgme_strerror fill v = Some (rendered gpgme_strerror v)) /\
  (length (rendered gpgme_strerror v) =
     Nat.min (length (description gpgme_strerror v)) (buffer_size - 1)) /\
  (length (rendered gpgme_strerror v) + 1 <= buffer_size) /\
  (~ In NUL (rendered gpgme_strerror v)) /\
  (forall fill message,
      asStdString gpgme_strerror fill (mkError v message) =
        Some (rendered gpgme_strerror v)) /\
  (forall fills, exists e1,
      asString_calls gpgme_strerror fills (Error_ctor v) =
        Some (repeat (rendered gpgme_strerror v) (length fills), e1) /\
      mErr e1 = v).
Proof.
  pose proof buffer_size_pos as Hpos.
  assert (Hlen : length (rendered gpgme_strerror v) =
                 Nat.min (length (description gpgme_strerror v))
                         (buffer_size - 1)).
  { unfold rendered. rewrite length_firstn. apply Nat.min_comm. }
  split; [reflexivity |].
  split.
  { intros fill.
    destruct (format_error_buffer_spec gpgme_strerror fill v)
      as (buffer & Hbuf & Hsize & Hnul & Htext).
    exists buffer. repeat split; try assumption.
    unfold rendered. rewrite <- Htext.
    apply string_of_c_terminated.
    apply nth_error_In with (n := buffer_size - 1). exact Hnul. }
  split; [intros fill; apply format_error_spec |].
  split; [exact Hlen |].
  split; [rewrite Hlen; lia |].
  split.
  { unfold rendered, description.
    apply firstn_no_NUL, c_text_no_NUL. }
  split.
  { intros fill message. unfold asStdString. simpl.
    apply format_error_spec. }
  intros fills.
  apply (asString_calls_memo gpgme_strerror fills (Error_ctor v)).
  left. reflexivity.
Qed.

End MessageFacts.

(* ===================================================================== *)
(** ** Properties of [GpgME::Flags] *)
(* ===================================================================== *)

Module FlagsFacts.
Import FlagsH.

Section Template.
Variable W : Z.
Variable Nb : Z.
Hypothesis Hinst : instantiable W Nb.

(** [(~std::bitset<_Nb>()).to_ulong()] is the mask of the low [Nb]
    bits. *)
Lemma to_ulong_mask :
  to_ulong (bitset_flip Nb bitset_default) = Some (Z.ones Nb).
Proof.
  destruct Hinst as [_ HNb].
  unfold to_ulong, bitset_flip, bitset_default, ulong_bits.
  rewrite Z.lxor_0_l.
  assert (Hlt : Z.ones Nb < 2 ^ 64).
  { rewrite Z.ones_equiv.
    assert (2 ^ Nb <= 2 ^ 64) by (apply Z.pow_le_mono_r; lia). lia. }
  destruct (Z.ltb_spec (Z.ones Nb) (2 ^ 64)); [reflexivity | lia].
Qed.

(** The complement, bit by bit: bit [i] of the result is the negation
    of bit [i] of the operand when [i] is below both [Nb] and [W], and
    clear otherwise. *)
Lemma operator_not_bits (f : Flags) :
  exists c,
    operator_not W Nb f = Some c /\
    0 <= mFlags c < 2 ^ W /\
    forall i, 0 <= i ->
      Z.testbit (mFlags c) i =
        negb (Z.testbit (mFlags f) i) && (i <? Nb) && (i <? W).
Proof.
  unfold operator_not. rewrite to_ulong_mask.
  destruct Hinst as [HW HNb].
  eexists. split; [reflexivity |]. simpl mFlags.
  unfold to_UnderlyingT, to_unsigned_long, ulong_bits.
  split; [apply Z.mod_pos_bound, Z.pow_pos_nonneg; lia |].
  intros i Hi.
  rewrite Bits.testbit_mod, Z.land_spec, Bits.testbit_mod,
    Bits.testbit_ones by lia.
  unfold bitwise_not, to_UnderlyingT.
  destruct (W <? int_bits).
  - rewrite Bits.testbit_lnot.
    destruct (Z.ltb_spec i W), (Z.ltb_spec i Nb), (Z.ltb_spec i 64),
      (Z.leb_spec 0 i), (Z.testbit (mFlags f) i);
      simpl; try reflexivity; lia.
  - rewrite Bits.testbit_mod, Bits.testbit_lnot by lia.
    destruct (Z.ltb_spec i W), (Z.ltb_spec i Nb), (Z.ltb_spec i 64),
      (Z.leb_spec 0 i), (Z.testbit (mFlags f) i);
      simpl; try reflexivity; lia.
Qed.

Lemma operator_not_within (f : Flags) :
  exists c,
    operator_not W Nb f = Some c /\
    is_value W c /\ within_Nb Nb c /\
    forall i, Nb <= i -> Z.testbit (mFlags c) i = false.
Proof.
  destruct (operator_not_bits f) as (c & Hc & Hrange & Hbits).
  destruct Hinst as [HW HNb].
  assert (Hhigh : forall i, Nb <= i -> Z.testbit (mFlags c) i = false).
  { intros i Hi. rewrite Hbits by lia.
    destruct (Z.ltb_spec i Nb); [lia |].
    rewrite andb_false_r. reflexivity. }
  exists c. split; [exact Hc |]. split; [exact Hrange |].
  split; [| exact Hhigh].
  split; [lia |]. apply Bits.bounded_of_bits; [lia | lia | exact Hhigh].
Qed.

(** The three binary operations keep a pair of operands without bits
    at [Nb] or above inside that domain. *)
Lemma binary_within (op : Z -> Z -> Z) (bop : bool -> bool -> bool)
      (a b : Flags) :
  (forall x y i, Z.testbit (op x y) i = bop (Z.testbit x i) (Z.testbit y i)) ->
  bop false false = false ->
  0 <= op (mFlags a) (mFlags b) ->
  within_Nb Nb a -> within_Nb Nb b ->
  0 <= op (mFlags a) (mFlags b) < 2 ^ Nb.
Proof.
  intros Hspec Hff Hnn Ha Hb. destruct Hinst as [_ HNb].
  split; [exact Hnn |].
  apply Bits.bounded_of_bits; [lia | exact Hnn |].
  intros i Hi. rewrite Hspec.
  rewrite (Bits.testbit_high (mFlags a) Nb i),
    (Bits.testbit_high (mFlags b) Nb i); auto; lia.
Qed.

(** What [reset(flag)] and [set(flag, false)] leave in the object. *)
Lemma reset_bits (a : Flags) (flag : Z) :
  exists a1,
    reset W Nb a flag = Some a1 /\
    set W Nb a flag false = Some a1 /\
    forall i, 0 <= i ->
      Z.testbit (mFlags a1) i =
        Z.testbit (mFlags a) i &&
        (negb (Z.testbit flag i) && (i <? Nb) && (i <? W)).
Proof.
  unfold reset, set.
  destruct (operator_not_bits (Flags_of_enum flag))
    as (mask & -> & _ & Hbits).
  eexists. split; [reflexivity |]. split; [reflexivity |].
  intros i Hi. unfold operator_and_assign. simpl mFlags.
  rewrite Z.land_spec, Hbits by exact Hi. reflexivity.
Qed.

End Template.

(** [test(flag)] read bit by bit. *)
Lemma test_iff_bits (a : Flags) (flag : Z) :
  test a flag = true <->
  forall i, 0 <= i ->
    Z.testbit flag i = true -> Z.testbit (mFlags a) i = true.
Proof.
  unfold test, toUnderlying. rewrite Z.eqb_eq. split.
  - intros Heq i Hi Hbit. rewrite <- Heq in Hbit.
    rewrite Z.land_spec in Hbit. apply andb_true_iff in Hbit. tauto.
  - intros Hall. apply Z.bits_inj'. intros i Hi.
    rewrite Z.land_spec.
    destruct (Z.testbit flag i) eqn:Hf.
    + rewrite (Hall i Hi Hf). reflexivity.
    + apply andb_false_r.
Qed.

(** The assertions of tests/t-flags.cpp hold of the model. *)
Example test_construction :
  toUnderlyingType Flags_default = 0 /\
  operator_bool Flags_default = false /\
  test Flags_default TestFlag.A = false /\
  toUnderlyingType (Flags_of_list [TestFlag.B; TestFlag.C]) = 6 /\
  test (Flags_of_list [TestFlag.B; TestFlag.C]) TestFlag.A = false /\
  test (Flags_of_list [TestFlag.B; TestFlag.C]) TestFlag.C = true /\
  test (fromUnderlyingType 3) TestFlag.B = true /\
  test (fromUnderlyingType 3) TestFlag.C = false.
Proof. repeat split; reflexivity. Qed.

Example test_set_reset :
  let ABC := Flags_of_list [TestFlag.A; TestFlag.B; TestFlag.C] in
  set TestFlag.W TestFlag.Nb ABC TestFlag.A false =
    Some (Flags_of_list [TestFlag.B; TestFlag.C]) /\
  reset TestFlag.W TestFlag.Nb ABC TestFlag.B =
    Some (Flags_of_list [TestFlag.A; TestFlag.C]) /\
  operator_bool (reset_all (Flags_of_list [TestFlag.A; TestFlag.C])) = false.
Proof. repeat split; reflexivity. Qed.

Example test_operators :
  let AB := Flags_of_list [TestFlag.A; TestFlag.B] in
  let AC := Flags_of_list [TestFlag.A; TestFlag.C] in
  let ABC := Flags_of_list [TestFlag.A; TestFlag.B; TestFlag.C] in
  operator_xor AB AC = Flags_of_list [TestFlag.B; TestFlag.C] /\
  enum_operator_and TestFlag.B AB = Flags_of_enum TestFlag.B /\
  operator_not TestFlag.W TestFlag.Nb AB = Some (Flags_of_enum TestFlag.C) /\
  operator_not TestFlag.W TestFlag.Nb ABC = Some Flags_default /\
  operator_ne AB (Flags_of_list [TestFlag.B; TestFlag.C]) = true /\
  enum_xor TestFlag.A TestFlag.A = Flags_default.
Proof. repeat split; reflexivity. Qed.

Lemma instantiable_32_3 : instantiable 32 3.
Proof. unfold instantiable. lia. Qed.

Lemma instantiable_32_32 : instantiable 32 32.
Proof. unfold instantiable. lia. Qed.

(** C3. For every instantiation with [Nb <= 64]: the complement of any
    value exists, is non-negative and below [2 ^ Nb], and all its bits
    at positions [Nb] and above are zero; in particular the complement
    of the empty set is below [2 ^ Nb]; and union, intersection,
    symmetric difference and complement of values below [2 ^ Nb] are
    again below [2 ^ Nb]. *)
Theorem complement_never_leaks (W Nb : Z) :
  instantiable W Nb ->
  (forall a, exists c,
      operator_not W Nb a = Some c /\
      0 <= toUnderlyingType c < 2 ^ Nb /\
      forall i, Nb <= i -> Z.testbit (toUnderlyingType c) i = false) /\
  (exists c,
      operator_not W Nb Flags_default = Some c /\
      toUnderlyingType c < 2 ^ Nb) /\
  (forall a b, within_Nb Nb a -> within_Nb Nb b ->
      within_Nb Nb (operator_or a b) /\
      within_Nb Nb (operator_and a b) /\
      within_Nb Nb (operator_xor a b) /\
      exists c, operator_not W Nb a = Some c /\ within_Nb Nb c).
Proof.
  intros Hinst. split; [| split].
  - intros a.
    destruct (operator_not_within W Nb Hinst a)
      as (c & Hc & _ & Hin & Hhigh).
    exists c. repeat split; try assumption; apply Hin.
  - destruct (operator_not_within W Nb Hinst Flags_default)
      as (c & Hc & _ & Hin & _).
    exists c. split; [exact Hc | apply Hin].
  - intros a b Ha Hb. unfold within_Nb in *.
    split; [| split; [| split]].
    + apply (binary_within W Nb Hinst Z.lor orb a b); auto.
      * intros. apply Z.lor_spec.
      * apply Z.lor_nonneg. lia.
    + apply (binary_within W Nb Hinst Z.land andb a b); auto.
      * intros. apply Z.land_spec.
      * apply Z.land_nonneg. lia.
    + apply (binary_within W Nb Hinst Z.lxor xorb a b); auto.
      * intros. apply Z.lxor_spec.
      * apply Z.lxor_nonneg. lia.
    + destruct (operator_not_within W Nb Hinst a)
        as (c & Hc & _ & Hin & _).
      exists c. split; assumption.
Qed.

Lemma complement_never_leaks_witness :
  instantiable 32 3 /\
  exists c,
    operator_not 32 3 (fromUnderlyingType 8) = Some c /\
    0 <= toUnderlyingType c < 2 ^ 3.
Proof.
  split; [exact instantiable_32_3 |].
  destruct (complement_never_leaks 32 3 instantiable_32_3) as [Hnot _].
  destruct (Hnot (fromUnderlyingType 8)) as (c & Hc & Hrange & _).
  exists c. split; assumption.
Defined.

(** C4, as the claim states it, fails: with [Nb = 3] on a 32-bit
    underlying type the value 8 has complement 7, whose complement is 0,
    so [~~a == a] is false for it. *)
Lemma double_complement_fails :
  ~ (forall a b : Flags, is_value 32 a -> is_value 32 b ->
       operator_eq (operator_or a b) (operator_or b a) = true /\
       operator_eq (operator_and a b) (operator_and b a) = true /\
       operator_bool (operator_xor a a) = false /\
       exists c cc,
         operator_not 32 3 a = Some c /\
         operator_not 32 3 c = Some cc /\
         operator_eq cc a = true).
Proof.
  intros H.
  destruct (H (fromUnderlyingType 8) Flags_default)
    as (_ & _ & _ & c & cc & Hc & Hcc & Heq).
  - unfold is_value. simpl. lia.
  - unfold is_value. simpl. lia.
  - vm_compute in Hc. injection Hc as <-.
    vm_compute in Hcc. injection Hcc as <-.
    vm_compute in Heq. discriminate.
Qed.

(** C4, amended. Union and intersection are commutative and [a ^ a] is
    the empty set for all values; [~~a == a] holds for every value [a]
    of the underlying type whose stored integer has no bit at position
    [Nb] or above. *)
Theorem flags_algebra (W Nb : Z) :
  instantiable W Nb ->
  forall a b : Flags,
    operator_eq (operator_or a b) (operator_or b a) = true /\
    operator_eq (operator_and a b) (operator_and b a) = true /\
    operator_eq (operator_xor a a) Flags_default = true /\
    operator_bool (operator_xor a a) = false /\
    (is_value W a -> within_Nb Nb a ->
     exists c cc,
       operator_not W Nb a = Some c /\
       operator_not W Nb c = Some cc /\
       operator_eq cc a = true).
Proof.
  intros Hinst a b. unfold operator_eq, operator_bool. simpl.
  split; [apply Z.eqb_eq, Z.lor_comm |].
  split; [apply Z.eqb_eq, Z.land_comm |].
  rewrite Z.lxor_nilpotent.
  split; [reflexivity |]. split; [reflexivity |].
  intros Hval Hin.
  destruct (operator_not_bits W Nb Hinst a) as (c & Hc & _ & Hbc).
  destruct (operator_not_bits W Nb Hinst c) as (cc & Hcc & _ & Hbcc).
  exists c, cc. split; [exact Hc |]. split; [exact Hcc |].
  apply Z.eqb_eq. destruct Hinst as [HW HNb].
  unfold is_value, within_Nb in *.
  apply Z.bits_inj'. intros i Hi.
  rewrite Hbcc, Hbc by exact Hi.
  destruct (Z.ltb_spec i Nb) as [HiN | HiN].
  - destruct (Z.ltb_spec i W) as [HiW | HiW].
    + destruct (Z.testbit (mFlags a) i); reflexivity.
    + rewrite (Bits.testbit_high (mFlags a) W i) by lia. reflexivity.
  - rewrite (Bits.testbit_high (mFlags a) Nb i) by lia. reflexivity.
Qed.

Lemma flags_algebra_witness :
  instantiable 32 3 /\
  exists c cc,
    operator_not 32 3 (fromUnderlyingType 5) = Some c /\
    operator_not 32 3 c = Some cc /\
    operator_eq cc (fromUnderlyingType 5) = true.
Proof.
  split; [exact instantiable_32_3 |].
  destruct (flags_algebra 32 3 instantiable_32_3
              (fromUnderlyingType 5) Flags_default)
    as (_ & _ & _ & _ & Hinv).
  apply Hinv.
  - unfold is_value. simpl. lia.
  - unfold within_Nb. simpl. lia.
Defined.

(** C5, as the claim states it, fails: for a flag whose underlying
    value is 0, [test] is true also right after [reset]. *)
Lemma test_after_reset_fails :
  ~ (forall (a : Flags) (flag : Z), is_value 32 a -> is_enum 32 flag ->
       (exists a1, set 32 32 a flag true = Some a1 /\ test a1 flag = true) /\
       (exists a2, reset 32 32 a flag = Some a2 /\ test a2 flag = false)).
Proof.
  intros H.
  destruct (H Flags_default 0) as (_ & a2 & Ha2 & Htest).
  - unfold is_value. simpl. lia.
  - unfold is_enum. lia.
  - vm_compute in Ha2. injection Ha2 as <-.
    vm_compute in Htest. discriminate.
Qed.

(** C5, amended. For every value [a] and flag [e]: [test(e)] is true
    right after [set(e)]; right after [reset(e)] it is false when the
    underlying value of [e] is not 0 (and true when it is 0); and
    [test(e)] is true exactly when every bit of [e] is set in the
    stored integer. *)
Theorem test_after_set_reset (W Nb : Z) :
  instantiable W Nb ->
  forall (a : Flags) (flag : Z),
    (exists a1, set W Nb a flag true = Some a1 /\ test a1 flag = true) /\
    (exists a2, reset W Nb a flag = Some a2 /\
                test a2 flag = (toUnderlying flag =? 0)) /\
    (test a flag = true <->
     forall i, 0 <= i ->
       Z.testbit (toUnderlying flag) i = true ->
       Z.testbit (toUnderlyingType a) i = true).
Proof.
  intros Hinst a flag. split; [| split].
  - eexists. split; [reflexivity |].
    unfold test, operator_or_assign_enum, toUnderlying. simpl.
    apply Z.eqb_eq. apply Z.bits_inj'. intros i Hi.
    rewrite Z.land_spec, Z.lor_spec.
    destruct (Z.testbit (mFlags a) i), (Z.testbit flag i); reflexivity.
  - destruct (reset_bits W Nb Hinst a flag) as (a2 & Hreset & _ & Hbits).
    exists a2. split; [exact Hreset |].
    unfold test, toUnderlying.
    assert (Hzero : Z.land (mFlags a2) flag = 0).
    { apply Z.bits_inj'. intros i Hi.
      rewrite Z.land_spec, Hbits, Z.bits_0 by exact Hi.
      destruct (Z.testbit (mFlags a) i), (Z.testbit flag i),
        (i <? Nb), (i <? W); reflexivity. }
    rewrite Hzero. apply Z.eqb_sym.
  - apply test_iff_bits.
Qed.

Lemma test_after_set_reset_witness :
  instantiable 32 3 /\
  exists a2,
    reset 32 3 (Flags_of_list [1; 2; 4]) 2 = Some a2 /\
    test a2 2 = (toUnderlying 2 =? 0).
Proof.
  split; [exact instantiable_32_3 |].
  destruct (test_after_set_reset 32 3 instantiable_32_3
              (Flags_of_list [1; 2; 4]) 2) as (_ & Hreset & _).
  exact Hreset.
Defined.

(** C9. For a flag whose underlying value is 0, [test] is true on every
    value, the default-constructed empty set included. *)
Theorem test_zero_valued_flag (a : Flags) :
  test a 0 = true /\ test Flags_default 0 = true.
Proof.
  unfold test, toUnderlying. rewrite !Z.land_0_r. split; reflexivity.
Qed.

(** C10. [reset(e)] and [set(e, false)] leave the same value: below
    position [Nb] a bit survives exactly when it was set and is not a
    bit of [e], and every bit at position [Nb] or above is cleared;
    whereas [fromUnderlyingType] stores its argument unchanged and the
    binary operators combine the operands bit by bit at every position,
    those at [Nb] and above included. *)
Theorem reset_clears_high_bits (W Nb : Z) :
  instantiable W Nb ->
  forall (a : Flags) (flag : Z), is_value W a ->
    (exists a1,
        reset W Nb a flag = Some a1 /\
        set W Nb a flag false = Some a1 /\
        (forall i, Nb <= i -> Z.testbit (toUnderlyingType a1) i = false) /\
        (forall i, 0 <= i < Nb ->
           Z.testbit (toUnderlyingType a1) i =
             Z.testbit (toUnderlyingType a) i &&
             negb (Z.testbit (toUnderlying flag) i))) /\
    (forall v, toUnderlyingType (fromUnderlyingType v) = v) /\
    (forall (b : Flags) i,
        Z.testbit (toUnderlyingType (operator_or a b)) i =
          Z.testbit (toUnderlyingType a) i ||
          Z.testbit (toUnderlyingType b) i) /\
    (forall (b : Flags) i,
        Z.testbit (toUnderlyingType (operator_and a b)) i =
          Z.testbit (toUnderlyingType a) i &&
          Z.testbit (toUnderlyingType b) i) /\
    (forall (b : Flags) i,
        Z.testbit (toUnderlyingType (operator_xor a b)) i =
          xorb (Z.testbit (toUnderlyingType a) i)
               (Z.testbit (toUnderlyingType b) i)).
Proof.
  intros Hinst a flag Hval.
  split; [| split; [| split; [| split]]].
  - destruct (reset_bits W Nb Hinst a flag) as (a1 & Hreset & Hset & Hbits).
    destruct Hinst as [HW HNb]. unfold is_value in Hval.
    exists a1. split; [exact Hreset |]. split; [exact Hset |].
    unfold toUnderlyingType, toUnderlying. split.
    + intros i Hi. rewrite Hbits by lia.
      destruct (Z.ltb_spec i Nb); [lia |].
      rewrite !andb_false_r. reflexivity.
    + intros i [Hi0 HiN]. rewrite Hbits by lia.
      destruct (Z.ltb_spec i Nb); [| lia].
      destruct (Z.ltb_spec i W) as [HiW | HiW].
      * rewrite !andb_true_r. reflexivity.
      * rewrite (Bits.testbit_high (mFlags a) W i) by lia. reflexivity.
  - reflexivity.
  - intros b i. apply Z.lor_spec.
  - intros b i. apply Z.land_spec.
  - intros b i. apply Z.lxor_spec.
Qed.

Lemma reset_clears_high_bits_witness :
  instantiable 32 3 /\ is_value 32 (fromUnderlyingType 15) /\
  exists a1,
    reset 32 3 (fromUnderlyingType 15) 1 = Some a1 /\
    Z.testbit (toUnderlyingType a1) 3 = false.
Proof.
  assert (Hval : is_value 32 (fromUnderlyingType 15)).
  { unfold is_value. simpl. lia. }
  split; [exact instantiable_32_3 |]. split; [exact Hval |].
  destruct (reset_clears_high_bits 32 3 instantiable_32_3
              (fromUnderlyingType 15) 1 Hval)
    as ((a1 & Hreset & _ & Hhigh & _) & _).
  exists a1. split; [exact Hreset | apply Hhigh; lia].
Defined.

End FlagsFacts.

(* ===================================================================== *)
(** ** Properties of [split_into_string_views] *)
(* ===================================================================== *)

Module UtilFacts.
Import CString CStringFacts Util.
Local Open Scope nat_scope.

Lemma emplace_app (result : list string_view) (s n : nat) :
  emplace_if_nonempty result s n = result ++ emplace_if_nonempty [] s n.
Proof.
  unfold emplace_if_nonempty. destruct (n =? 0).
  - rewrite app_nil_r. reflexivity.
  - reflexivity.
Qed.

(** What [strchr] finds in a terminated array: either a first
    delimiter, after a stretch free of delimiters and NULs, or the
    terminator after such a stretch. *)
Lemma strchr_from_cases (d : byte) (suffix : list byte) (s : nat) :
  d <> NUL -> In NUL suffix ->
  exists seg rest,
    ~ In d seg /\ ~ In NUL seg /\
    ((suffix = seg ++ d :: rest /\
      strchr_from suffix s d = Some (Some (s + length seg))) \/
     (suffix = seg ++ NUL :: rest /\
      strchr_from suffix s d = Some None)).
Proof.
  intros Hd. revert s.
  induction suffix as [| b tail IH]; intros s Hin; [destruct Hin |].
  simpl. destruct (byte_eqb_spec b d) as [-> | Hbd].
  - exists [], tail. split; [simpl; tauto |]. split; [simpl; tauto |].
    left. split; [reflexivity |]. simpl. f_equal. f_equal. lia.
  - destruct (byte_eqb_spec b NUL) as [-> | Hb0].
    + exists [], tail. split; [simpl; tauto |]. split; [simpl; tauto |].
      right. split; reflexivity.
    + destruct Hin as [Heq | Hin]; [congruence |].
      destruct (IH (S s) Hin) as (seg & rest & Hnd & Hn0 & Hcases).
      exists (b :: seg), rest.
      split; [intros [H | H]; [congruence | tauto] |].
      split; [intros [H | H]; [congruence | tauto] |].
      destruct Hcases as [[-> Hs] | [-> Hs]]; [left | right];
        (split; [reflexivity |]); rewrite Hs; [| reflexivity].
      simpl. f_equal. f_equal. lia.
Qed.

Lemma segments_delimiter (d : byte) (seg tail : list byte) :
  ~ In d seg -> segments d (seg ++ d :: tail) = seg :: segments d tail.
Proof.
  induction seg as [| b seg IH]; intros Hnd; simpl.
  - rewrite byte_eqb_refl. reflexivity.
  - destruct (byte_eqb_spec b d) as [-> | Hbd]; [simpl in Hnd; tauto |].
    rewrite IH by (simpl in Hnd; tauto). reflexivity.
Qed.

Lemma segments_last (d : byte) (seg : list byte) :
  ~ In d seg -> segments d seg = [seg].
Proof.
  induction seg as [| b seg IH]; intros Hnd; simpl; [reflexivity |].
  destruct (byte_eqb_spec b d) as [-> | Hbd]; [simpl in Hnd; tauto |].
  rewrite IH by (simpl in Hnd; tauto). reflexivity.
Qed.

Lemma c_text_stretch (seg : list byte) (b : byte) (rest : list byte) :
  ~ In NUL seg ->
  c_text (seg ++ b :: rest) = seg ++ c_text (b :: rest).
Proof.
  induction seg as [| c seg IH]; intros Hn0; [reflexivity |].
  simpl app. simpl c_text at 1.
  destruct (byte_eqb_spec c NUL) as [-> | Hc]; [simpl in Hn0; tauto |].
  rewrite IH by (simpl in Hn0; tauto). reflexivity.
Qed.

Lemma skipn_past (mem seg rest : list byte) (b : byte) (s : nat) :
  skipn s mem = seg ++ b :: rest ->
  skipn (S (s + length seg)) mem = rest.
Proof.
  intros Hs.
  replace (S (s + length seg)) with (S (length seg) + s) by lia.
  rewrite <- skipn_skipn, Hs.
  change (S (length seg)) with (1 + length seg).
  rewrite <- skipn_skipn, skipn_app, skipn_all, Nat.sub_diag.
  reflexivity.
Qed.

(** The text of the view the loop emplaces for a stretch. *)
Lemma emplace_text (mem seg : list byte) (b : byte) (rest : list byte)
      (s : nat) :
  skipn s mem = seg ++ b :: rest ->
  map (view_text mem) (emplace_if_nonempty [] s (length seg)) =
    filter nonempty [seg] /\
  Forall (fun v => sv_size v <> 0) (emplace_if_nonempty [] s (length seg)).
Proof.
  intros Hs. unfold emplace_if_nonempty, nonempty. simpl filter.
  destruct (length seg =? 0) eqn:Hlen; simpl.
  - split; [reflexivity | constructor].
  - apply Nat.eqb_neq in Hlen. split.
    + unfold view_text. simpl. rewrite Hs, firstn_app, firstn_all,
        Nat.sub_diag. simpl. rewrite app_nil_r. reflexivity.
    + constructor; [exact Hlen | constructor].
Qed.

(** The loop and the final [strlen] from any pointer into a terminated
    array: the loop ends, leaving the pointer at the last stretch, and
    the views emplaced, the last one included, are the non-empty
    segments of the text from the pointer on. *)
Lemma split_loop_spec (d : byte) (mem : list byte) (s : nat)
      (result : list string_view) :
  d <> NUL -> In NUL (skipn s mem) ->
  exists s1 views n,
    split_loop mem d s result = Some (s1, result ++ views) /\
    strlen mem s1 = Some n /\
    map (view_text mem) (views ++ emplace_if_nonempty [] s1 n) =
      filter nonempty (segments d (c_text (skipn s mem))) /\
    Forall (fun v => sv_size v <> 0)
           (views ++ emplace_if_nonempty [] s1 n).
Proof.
  intros Hd.
  functional induction (split_loop mem d s result)
    as [s result segment_end Hfound IH | s result Hnone | s result Hout];
    intros Hin;
    destruct (strchr_from_cases d (skipn s mem) s Hd Hin)
      as (seg & rest & Hnd & Hn0 & [[Heq Hs] | [Heq Hs]]);
    unfold strchr in *; try congruence.
  (* reading outside the array does not happen; two cases remain *)
  - (* a delimiter was found: one more turn *)
    assert (segment_end = s + length seg) as -> by congruence.
    replace (s + length seg - s) with (length seg) in * by lia.
    pose proof (skipn_past mem seg rest d s Heq) as Hrest.
    assert (Hin' : In NUL (skipn (S (s + length seg)) mem)).
    { rewrite Hrest. rewrite Heq in Hin.
      apply in_app_or in Hin. destruct Hin as [H | [H | H]];
        [tauto | congruence | exact H]. }
    destruct (IH Hin') as (s1 & views & n & Hloop & Hlen & Htexts & Hsizes).
    destruct (emplace_text mem seg d rest s Heq) as [Hfirst Hfirst_size].
    exists s1, (emplace_if_nonempty [] s (length seg) ++ views), n.
    split; [| split; [exact Hlen | split]].
    + rewrite Hloop, emplace_app, app_assoc. reflexivity.
    + rewrite <- app_assoc, map_app, Htexts, Hfirst, Hrest, Heq.
      rewrite c_text_stretch by exact Hn0. simpl c_text.
      destruct (byte_eqb_spec d NUL) as [H | _]; [contradiction |].
      rewrite segments_delimiter by exact Hnd.
      simpl. destruct (nonempty seg); reflexivity.
    + rewrite <- app_assoc. apply Forall_app. split; assumption.
  - (* the terminator was reached: the loop ends *)
    assert (Hlen : strlen mem s = Some (length seg)).
    { unfold strlen. rewrite strlen_from_terminated by exact Hin.
      rewrite Heq, c_text_stretch by exact Hn0. simpl.
      rewrite app_nil_r. reflexivity. }
    destruct (emplace_text mem seg NUL rest s Heq) as [Hlast Hlast_size].
    exists s, [], (length seg).
    split; [rewrite app_nil_r; reflexivity |].
    split; [exact Hlen |]. simpl app. split; [| exact Hlast_size].
    rewrite Hlast, Heq, c_text_stretch by exact Hn0. simpl.
    rewrite app_nil_r, segments_last by exact Hnd. reflexivity.
Qed.

(** For a terminated array and a delimiter other than NUL the function
    returns, and the views are the non-empty segments in order. *)
Lemma split_into_string_views_spec (mem : list byte) (d : byte) :
  d <> NUL -> In NUL mem ->
  exists views,
    split_into_string_views (Some mem) d = Some views /\
    map (view_text mem) views =
      filter nonempty (segments d (c_text mem)) /\
    Forall (fun v => sv_size v <> 0) views.
Proof.
  intros Hd Hin.
  destruct (split_loop_spec d mem 0 [] Hd Hin)
    as (s1 & views & n & Hloop & Hlen & Htexts & Hsizes).
  exists (views ++ emplace_if_nonempty [] s1 n).
  unfold split_into_string_views. rewrite Hloop, Hlen.
  simpl app. rewrite (emplace_app views).
  split; [reflexivity |]. split; assumption.
Qed.

(** C6. A null input yields the empty sequence.  For a terminated
    array and a delimiter other than NUL the function returns; the texts
    of the views are exactly the non-empty segments of the input, in
    order, so empty segments (leading, trailing, doubled delimiters) are
    left out and the last segment is there exactly when it is not empty;
    no view has size 0.  The eight examples evaluate as listed. *)
Theorem split_skips_empty_segments :
  (forall d, split_into_string_views None d = Some []) /\
  (forall mem d, d <> NUL -> In NUL mem ->
     exists views,
       split_into_string_views (Some mem) d = Some views /\
       map (view_text mem) views =
         filter nonempty (segments d (c_text mem)) /\
       Forall (fun v => sv_size v <> 0) views /\
       Forall (fun text => text <> []) (map (view_text mem) views)) /\
  split_texts None comma = Some [] /\
  split_texts (Some (literal [])) comma = Some [] /\
  split_texts (Some (literal (bytes ","))) comma = Some [] /\
  split_texts (Some (literal (bytes "abc"))) comma = Some [bytes "abc"] /\
  split_texts (Some (literal (bytes "abc,def"))) comma =
    Some [bytes "abc"; bytes "def"] /\
  split_texts (Some (literal (bytes ",abc"))) comma = Some [bytes "abc"] /\
  split_texts (Some (literal (bytes "abc,"))) comma = Some [bytes "abc"] /\
  split_texts (Some (literal (bytes "abc,,def"))) comma =
    Some [bytes "abc"; bytes "def"].
Proof.
  split; [reflexivity |].
  split; [| repeat split; vm_compute; reflexivity].
  intros mem d Hd Hin.
  destruct (split_into_string_views_spec mem d Hd Hin)
    as (views & Hsplit & Htexts & Hsizes).
  exists views. repeat split; try assumption.
  rewrite Htexts. apply Forall_forall. intros text Htext.
  apply filter_In in Htext. destruct Htext as [_ Hne].
  intros ->. discriminate.
Qed.

Lemma split_skips_empty_segments_witness :
  comma <> NUL /\ In NUL (literal (bytes ",ab,,c,")) /\
  exists views,
    split_into_string_views (Some (literal (bytes ",ab,,c,"))) comma =
      Some views /\
    map (view_text (literal (bytes ",ab,,c,"))) views =
      [bytes "ab"; bytes "c"].
Proof.
  assert (Hd : comma <> NUL) by discriminate.
  assert (Hin : In NUL (literal (bytes ",ab,,c,"))).
  { vm_compute. tauto. }
  split; [exact Hd |]. split; [exact Hin |].
  destruct split_skips_empty_segments as (_ & Hgeneral & _).
  destruct (Hgeneral (literal (bytes ",ab,,c,")) comma Hd Hin)
    as (views & Hsplit & Htexts & _).
  exists views. split; [exact Hsplit |].
  rewrite Htexts. vm_compute. reflexivity.
Defined.

End UtilFacts.

(* ===================================================================== *)
(** ** Further properties of [GpgME::Flags] *)
(* ===================================================================== *)

Module FlagsLaws.
Import FlagsH FlagsFacts.

(** Two flag sets with the same bits at every position are the same. *)
Lemma Flags_ext (a b : Flags) :
  (forall i, 0 <= i -> Z.testbit (mFlags a) i = Z.testbit (mFlags b) i) ->
  a = b.
Proof.
  intros Hbits. destruct a as [x], b as [y]. simpl in Hbits.
  f_equal. apply Z.bits_inj'. exact Hbits.
Qed.

Lemma fold_lor_bits (flags : list Z) (acc i : Z) :
  Z.testbit (fold_left (fun m flag => Z.lor m (toUnderlying flag)) flags acc) i =
    Z.testbit acc i || existsb (fun flag => Z.testbit flag i) flags.
Proof.
  revert acc. induction flags as [| flag rest IH]; intros acc; simpl.
  - rewrite orb_false_r. reflexivity.
  - rewrite IH, Z.lor_spec. unfold toUnderlying.
    rewrite orb_assoc. reflexivity.
Qed.

(** X1. The initializer-list constructor builds the union of its
    elements: a bit is set exactly when some element has it, so every
    element tests true, and two lists with the same elements, in any
    order and with any repetitions, build the same value. *)
Theorem initializer_list_is_union (flags : list Z) :
  (forall i, Z.testbit (toUnderlyingType (Flags_of_list flags)) i =
             existsb (fun flag => Z.testbit flag i) flags) /\
  (forall flag, In flag flags -> test (Flags_of_list flags) flag = true) /\
  (forall flags', (forall flag, In flag flags <-> In flag flags') ->
                  Flags_of_list flags' = Flags_of_list flags).
Proof.
  assert (Hbits : forall l i,
             Z.testbit (mFlags (Flags_of_list l)) i =
               existsb (fun flag => Z.testbit flag i) l).
  { intros l i. unfold Flags_of_list. simpl.
    rewrite fold_lor_bits, Z.bits_0. reflexivity. }
  split; [intros i; apply Hbits |]. split.
  - intros flag Hin. apply test_iff_bits. intros i Hi Hbit.
    rewrite (Hbits flags i). apply existsb_exists.
    exists flag. split; assumption.
  - intros flags' Hsame. apply Flags_ext. intros i Hi.
    rewrite (Hbits flags' i), (Hbits flags i).
    apply eq_true_iff_eq. rewrite !existsb_exists.
    split; intros (flag & Hin & Hbit); exists flag;
      (split; [apply Hsame; exact Hin | exact Hbit]).
Qed.

Lemma initializer_list_is_union_witness :
  Flags_of_list [TestFlag.C; TestFlag.A; TestFlag.C] =
    Flags_of_list [TestFlag.A; TestFlag.C].
Proof.
  destruct (initializer_list_is_union [TestFlag.A; TestFlag.C])
    as (_ & _ & Hsame).
  apply Hsame. intros flag. simpl. tauto.
Defined.

(** X2. De Morgan's laws hold for every pair of values, with the
    complement masked as [operator~] masks it; [a & ~a] is always the
    empty set; and [a | ~a] is the complement of the empty set for every
    value [a] of the underlying type without bits at [Nb] or above. *)
Theorem complement_laws (W Nb : Z) :
  instantiable W Nb ->
  forall a b : Flags,
  exists na nb,
    operator_not W Nb a = Some na /\
    operator_not W Nb b = Some nb /\
    operator_not W Nb (operator_or a b) = Some (operator_and na nb) /\
    operator_not W Nb (operator_and a b) = Some (operator_or na nb) /\
    operator_and a na = Flags_default /\
    (is_value W a -> within_Nb Nb a ->
     operator_not W Nb Flags_default = Some (operator_or a na)).
Proof.
  intros Hinst a b.
  destruct (operator_not_bits W Nb Hinst a) as (na & Hna & _ & Hba).
  destruct (operator_not_bits W Nb Hinst b) as (nb & Hnb & _ & Hbb).
  exists na, nb. split; [exact Hna |]. split; [exact Hnb |].
  split; [| split; [| split]].
  - destruct (operator_not_bits W Nb Hinst (operator_or a b))
      as (c & -> & _ & Hbc).
    f_equal. apply Flags_ext. intros i Hi.
    rewrite Hbc by exact Hi. simpl. rewrite Z.lor_spec, Z.land_spec.
    rewrite Hba, Hbb by exact Hi.
    destruct (Z.testbit (mFlags a) i), (Z.testbit (mFlags b) i),
      (i <? Nb), (i <? W); reflexivity.
  - destruct (operator_not_bits W Nb Hinst (operator_and a b))
      as (c & -> & _ & Hbc).
    f_equal. apply Flags_ext. intros i Hi.
    rewrite Hbc by exact Hi. simpl. rewrite Z.lor_spec, Z.land_spec.
    rewrite Hba, Hbb by exact Hi.
    destruct (Z.testbit (mFlags a) i), (Z.testbit (mFlags b) i),
      (i <? Nb), (i <? W); reflexivity.
  - apply Flags_ext. intros i Hi. simpl.
    rewrite Z.land_spec, Hba, Z.bits_0 by exact Hi.
    destruct (Z.testbit (mFlags a) i), (i <? Nb), (i <? W); reflexivity.
  - intros Hval Hin. unfold is_value, within_Nb in *.
    destruct Hinst as [HW HNb].
    destruct (operator_not_bits W Nb (conj HW HNb) Flags_default)
      as (full & -> & _ & Hbf).
    f_equal. apply Flags_ext. intros i Hi.
    rewrite Hbf by exact Hi. simpl.
    rewrite Z.lor_spec, Hba, Z.bits_0 by exact Hi. simpl.
    destruct (Z.ltb_spec i Nb) as [HiN | HiN].
    + destruct (Z.ltb_spec i W) as [HiW | HiW].
      * destruct (Z.testbit (mFlags a) i); reflexivity.
      * rewrite (Bits.testbit_high (mFlags a) W i) by lia. reflexivity.
    + rewrite (Bits.testbit_high (mFlags a) Nb i) by lia. reflexivity.
Qed.

Lemma complement_laws_witness :
  instantiable 32 3 /\
  exists na,
    operator_not 32 3 (fromUnderlyingType 5) = Some na /\
    operator_and (fromUnderlyingType 5) na = Flags_default.
Proof.
  split; [exact instantiable_32_3 |].
  destruct (complement_laws 32 3 instantiable_32_3
              (fromUnderlyingType 5) Flags_default)
    as (na & nb & Hna & _ & _ & _ & Hempty & _).
  exists na. split; assumption.
Defined.

(** X3. With the default bit count, [_Nb] the width of the underlying
    type, [operator~] is the exact complement within that width,
    [2 ^ W - 1 - value], it is an involution on every value, and
    [reset(e)] clears the bits of [e] and nothing else. *)
Theorem default_width_is_exact (W : Z) :
  0 < W <= 64 ->
  forall (a : Flags) (flag : Z), is_value W a ->
    (exists c,
        operator_not W W a = Some c /\
        toUnderlyingType c = 2 ^ W - 1 - toUnderlyingType a /\
        operator_not W W c = Some a) /\
    (exists a1,
        reset W W a flag = Some a1 /\
        toUnderlyingType a1 =
          Z.ldiff (toUnderlyingType a) (toUnderlying flag)).
Proof.
  intros HW a flag Hval.
  assert (Hinst : instantiable W W) by (unfold instantiable; lia).
  unfold is_value in Hval. unfold toUnderlyingType, toUnderlying. split.
  - destruct (operator_not_bits W W Hinst a) as (c & Hc & Hrange & Hbc).
    destruct (operator_not_bits W W Hinst c) as (cc & Hcc & _ & Hbcc).
    exists c. split; [exact Hc |]. split.
    + assert (Hmod : mFlags c = Z.lnot (mFlags a) mod 2 ^ W).
      { apply Z.bits_inj'. intros i Hi.
        rewrite Hbc, Bits.testbit_mod, Bits.testbit_lnot by lia.
        destruct (Z.ltb_spec i W), (Z.leb_spec 0 i),
          (Z.testbit (mFlags a) i); simpl; try reflexivity; lia. }
      rewrite Hmod. unfold Z.lnot.
      replace (Z.pred (- mFlags a))
        with (2 ^ W - 1 - mFlags a + (-1) * 2 ^ W) by lia.
      rewrite Z.mod_add by lia. apply Z.mod_small. lia.
    + rewrite Hcc. f_equal. apply Flags_ext. intros i Hi.
      rewrite Hbcc, Hbc by exact Hi.
      destruct (Z.ltb_spec i W) as [HiW | HiW].
      * destruct (Z.testbit (mFlags a) i); reflexivity.
      * rewrite (Bits.testbit_high (mFlags a) W i) by lia. reflexivity.
  - destruct (reset_bits W W Hinst a flag) as (a1 & Hreset & _ & Hbits).
    exists a1. split; [exact Hreset |].
    apply Z.bits_inj'. intros i Hi.
    rewrite Hbits, Z.ldiff_spec by exact Hi.
    destruct (Z.ltb_spec i W) as [HiW | HiW].
    + rewrite !andb_true_r. reflexivity.
    + rewrite (Bits.testbit_high (mFlags a) W i) by lia. reflexivity.
Qed.

Lemma default_width_is_exact_witness :
  0 < 32 <= 64 /\ is_value 32 (fromUnderlyingType 5) /\
  exists c,
    operator_not 32 32 (fromUnderlyingType 5) = Some c /\
    toUnderlyingType c = 2 ^ 32 - 1 - 5.
Proof.
  assert (HW : 0 < 32 <= 64) by lia.
  assert (Hval : is_value 32 (fromUnderlyingType 5)).
  { unfold is_value. simpl. lia. }
  split; [exact HW |]. split; [exact Hval |].
  destruct (default_width_is_exact 32 HW (fromUnderlyingType 5) 0 Hval)
    as ((c & Hc & Hvalue & _) & _).
  exists c. split; assumption.
Defined.

(** X4. [set(e)] and [reset(e)] leave every other flag as it was: for a
    flag [f] that shares no bit with [e] and lies within the low [Nb]
    bits of the underlying type, [test(f)] gives the same answer before
    and after. *)
Theorem set_reset_frame (W Nb : Z) :
  instantiable W Nb ->
  forall (a : Flags) (e f : Z),
    Z.land f e = 0 -> 0 <= f < 2 ^ Nb -> f < 2 ^ W ->
    (exists a1, set W Nb a e true = Some a1 /\ test a1 f = test a f) /\
    (exists a2, reset W Nb a e = Some a2 /\ test a2 f = test a f).
Proof.
  intros Hinst a e f Hdisjoint HfN HfW.
  assert (Hfe : forall i, Z.testbit f i = true -> Z.testbit e i = false).
  { intros i Hf. pose proof (f_equal (fun z => Z.testbit z i) Hdisjoint) as H.
    simpl in H. rewrite Z.land_spec, Z.bits_0, Hf in H. exact H. }
  split.
  - eexists. split; [reflexivity |].
    unfold test, operator_or_assign_enum, toUnderlying. simpl.
    f_equal. apply Z.bits_inj'. intros i Hi.
    rewrite !Z.land_spec, Z.lor_spec.
    destruct (Z.testbit f i) eqn:Hf.
    + rewrite (Hfe i Hf), orb_false_r. reflexivity.
    + rewrite !andb_false_r. reflexivity.
  - destruct (reset_bits W Nb Hinst a e) as (a2 & Hreset & _ & Hbits).
    exists a2. split; [exact Hreset |].
    unfold test, toUnderlying. f_equal.
    destruct Hinst as [HW HNb].
    apply Z.bits_inj'. intros i Hi.
    rewrite !Z.land_spec, Hbits by exact Hi.
    destruct (Z.testbit f i) eqn:Hf.
    + rewrite (Hfe i Hf).
      destruct (Z.ltb_spec i Nb) as [HiN | HiN].
      * destruct (Z.ltb_spec i W) as [HiW | HiW].
        -- simpl. rewrite !andb_true_r. reflexivity.
        -- rewrite (Bits.testbit_high f W i) in Hf by lia. discriminate.
      * rewrite (Bits.testbit_high f Nb i) in Hf by lia. discriminate.
    + rewrite !andb_false_r. reflexivity.
Qed.

Lemma set_reset_frame_witness :
  instantiable 32 3 /\ Z.land TestFlag.C TestFlag.A = 0 /\
  exists a2,
    reset 32 3 (Flags_of_list [TestFlag.A; TestFlag.C]) TestFlag.A = Some a2 /\
    test a2 TestFlag.C = test (Flags_of_list [TestFlag.A; TestFlag.C]) TestFlag.C.
Proof.
  assert (Hd : Z.land TestFlag.C TestFlag.A = 0) by reflexivity.
  split; [exact instantiable_32_3 |]. split; [exact Hd |].
  destruct (set_reset_frame 32 3 instantiable_32_3
              (Flags_of_list [TestFlag.A; TestFlag.C])
              TestFlag.A TestFlag.C Hd) as (_ & Hreset).
  - vm_compute. split; [discriminate | reflexivity].
  - reflexivity.
  - exact Hreset.
Defined.

(** X5. How [set(e)] and [reset(e)] compose on one flag: each is
    idempotent, [reset(e)] after [set(e)] is [reset(e)] alone, and
    [set(e)] after [reset(e)] is [set(e)] alone for every value of the
    underlying type without bits at [Nb] or above. *)
Theorem set_reset_compose (W Nb : Z) :
  instantiable W Nb ->
  forall (a : Flags) (e : Z),
  exists s r,
    set W Nb a e true = Some s /\
    reset W Nb a e = Some r /\
    set W Nb s e true = Some s /\
    reset W Nb r e = Some r /\
    reset W Nb s e = Some r /\
    (is_value W a -> within_Nb Nb a -> set W Nb r e true = Some s).
Proof.
  intros Hinst a e.
  destruct (reset_bits W Nb Hinst a e) as (r & Hr & _ & Hbr).
  exists (operator_or_assign_enum a e), r.
  split; [reflexivity |]. split; [exact Hr |].
  split; [| split; [| split]].
  - unfold set. f_equal. apply Flags_ext. intros i Hi. simpl.
    rewrite !Z.lor_spec. unfold toUnderlying.
    destruct (Z.testbit (mFlags a) i), (Z.testbit e i); reflexivity.
  - destruct (reset_bits W Nb Hinst r e) as (rr & -> & _ & Hbrr).
    f_equal. apply Flags_ext. intros i Hi.
    rewrite Hbrr, Hbr by exact Hi.
    destruct (Z.testbit (mFlags a) i), (Z.testbit e i),
      (i <? Nb), (i <? W); reflexivity.
  - destruct (reset_bits W Nb Hinst (operator_or_assign_enum a e) e)
      as (sr & -> & _ & Hbsr).
    f_equal. apply Flags_ext. intros i Hi.
    rewrite Hbsr, Hbr by exact Hi. simpl.
    rewrite Z.lor_spec. unfold toUnderlying.
    destruct (Z.testbit (mFlags a) i), (Z.testbit e i),
      (i <? Nb), (i <? W); reflexivity.
  - intros Hval Hin. unfold is_value, within_Nb in *.
    destruct Hinst as [HW HNb].
    unfold set. f_equal. apply Flags_ext. intros i Hi. simpl.
    rewrite !Z.lor_spec, Hbr by exact Hi. unfold toUnderlying.
    destruct (Z.ltb_spec i Nb) as [HiN | HiN].
    + destruct (Z.ltb_spec i W) as [HiW | HiW].
      * destruct (Z.testbit (mFlags a) i), (Z.testbit e i); reflexivity.
      * rewrite (Bits.testbit_high (mFlags a) W i) by lia. reflexivity.
    + rewrite (Bits.testbit_high (mFlags a) Nb i) by lia. reflexivity.
Qed.

Lemma set_reset_compose_witness :
  instantiable 32 3 /\
  exists s r,
    set 32 3 (Flags_of_enum TestFlag.B) TestFlag.A true = Some s /\
    reset 32 3 (Flags_of_enum TestFlag.B) TestFlag.A = Some r /\
    reset 32 3 s TestFlag.A = Some r.
Proof.
  split; [exact instantiable_32_3 |].
  destruct (set_reset_compose 32 3 instantiable_32_3
              (Flags_of_enum TestFlag.B) TestFlag.A)
    as (s & r & Hs & Hr & _ & _ & Hsr & _).
  exists s, r. repeat split; assumption.
Defined.

Lemma land_pow2 (x k : Z) :
  0 <= k ->
  Z.land x (2 ^ k) = if Z.testbit x k then 2 ^ k else 0.
Proof.
  intros Hk. apply Z.bits_inj'. intros i Hi.
  rewrite Z.land_spec, Z.pow2_bits_eqb by exact Hk.
  destruct (Z.eqb_spec k i) as [<- | Hne].
  - destruct (Z.testbit x k) eqn:Hx.
    + rewrite Z.pow2_bits_true by exact Hk. reflexivity.
    + rewrite Z.bits_0. reflexivity.
  - rewrite andb_false_r.
    destruct (Z.testbit x k).
    + rewrite Z.pow2_bits_false by assumption. reflexivity.
    + rewrite Z.bits_0. reflexivity.
Qed.

(** X6. [test(e)] asks for all bits of [e], [bool(flags & e)] for any of
    them: when [test(e)] is true and [e] is not 0 the intersection is
    non-empty, and for a single-bit flag [e = 2 ^ k] the two agree and
    say whether bit [k] is set. *)
Theorem test_versus_intersection (a : Flags) (e : Z) :
  (test a e = true -> toUnderlying e <> 0 ->
   operator_bool (operator_and_enum a e) = true) /\
  (forall k, 0 <= k -> toUnderlying e = 2 ^ k ->
     test a e = Z.testbit (toUnderlyingType a) k /\
     operator_bool (operator_and_enum a e) = Z.testbit (toUnderlyingType a) k).
Proof.
  unfold test, operator_bool, operator_and_enum, toUnderlying,
    toUnderlyingType. simpl. split.
  - intros Htest Hne. apply Z.eqb_eq in Htest. rewrite Htest.
    apply negb_true_iff, Z.eqb_neq. exact Hne.
  - intros k Hk ->. rewrite (land_pow2 _ k Hk).
    assert (Hpos : 0 < 2 ^ k) by (apply Z.pow_pos_nonneg; lia).
    destruct (Z.testbit (mFlags a) k).
    + rewrite Z.eqb_refl.
      destruct (Z.eqb_spec (2 ^ k) 0); [lia | split; reflexivity].
    + destruct (Z.eqb_spec 0 (2 ^ k)); [lia | split; reflexivity].
Qed.

Lemma test_versus_intersection_witness :
  test (Flags_of_list [TestFlag.A; TestFlag.C]) TestFlag.C =
    Z.testbit (toUnderlyingType (Flags_of_list [TestFlag.A; TestFlag.C])) 2.
Proof.
  destruct (test_versus_intersection
              (Flags_of_list [TestFlag.A; TestFlag.C]) TestFlag.C)
    as (_ & Hsingle).
  destruct (Hsingle 2) as (Htest & _).
  - lia.
  - reflexivity.
  - exact Htest.
Defined.

End FlagsLaws.

(* ===================================================================== *)
(** ** Properties of [operator<<] for [GpgME::Flags] *)
(* ===================================================================== *)

Module FlagsStreamFacts.
Import FlagsH FlagsStream.

Lemma bitset_of_ullong_bits (Nb val i : Z) :
  0 <= Nb <= 64 -> 0 <= i < Nb ->
  Z.testbit (bitset_of_ullong Nb val) i = Z.testbit val i.
Proof.
  intros HNb Hi. unfold bitset_of_ullong.
  rewrite Z.land_spec, Bits.testbit_mod, Bits.testbit_ones by lia.
  destruct (Z.ltb_spec i 64), (Z.leb_spec 0 i),
    (Z.ltb_spec i (Z.min Nb 64)), (Z.testbit val i);
    simpl; try reflexivity; lia.
Qed.

Lemma digit_inj (x y : bool) : digit x = digit y -> x = y.
Proof. destruct x, y; simpl; intros H; try reflexivity; discriminate. Qed.

Lemma bitset_string_of_flags (Nb : Z) (f : Flags) :
  0 <= Nb <= 64 ->
  bitset_to_string Nb (bitset_of_ullong Nb (toUnderlyingType f)) =
    bitset_to_string Nb (toUnderlyingType f).
Proof.
  intros HNb. unfold bitset_to_string. apply map_ext_in.
  intros p Hp. apply in_seq in Hp.
  rewrite bitset_of_ullong_bits by lia. reflexivity.
Qed.

Lemma bitset_to_string_length (Nb b : Z) :
  length (bitset_to_string Nb b) = Z.to_nat Nb.
Proof.
  unfold bitset_to_string. rewrite length_map, length_seq. reflexivity.
Qed.

Lemma bitset_to_string_inj (Nb x y : Z) :
  0 <= Nb ->
  bitset_to_string Nb x = bitset_to_string Nb y ->
  forall i, 0 <= i < Nb -> Z.testbit x i = Z.testbit y i.
Proof.
  intros HNb Heq i Hi. unfold bitset_to_string in Heq.
  assert (Hin : In (Z.to_nat (Nb - 1 - i)) (seq 0 (Z.to_nat Nb))).
  { apply in_seq. lia. }
  pose proof (proj1 map_ext_in_iff Heq _ Hin) as Hdigit.
  simpl in Hdigit. apply digit_inj in Hdigit.
  replace (Nb - 1 - Z.of_nat (Z.to_nat (Nb - 1 - i))) with i
    in Hdigit by lia.
  exact Hdigit.
Qed.

(** Two sequences of one length that are padded alike are the same. *)
Lemma padded_inj (os : ostream) (x y : list byte) :
  length x = length y -> padded os x = padded os y -> x = y.
Proof.
  intros Hlen. unfold padded, padding. rewrite Hlen.
  destruct (adjust os); intros Heq.
  - apply app_inv_head in Heq. exact Heq.
  - apply app_inv_tail in Heq. exact Heq.
  - apply app_inv_head in Heq. exact Heq.
  - apply app_inv_head in Heq. exact Heq.
Qed.

(** X7. Writing a flag set to a stream is a formatted insertion of its
    [_Nb] binary digits, the one for bit [_Nb - 1] first, each ['1'] or
    ['0'] as the bit is set or clear.  On a good stream the digits are
    filled up to the field width with the fill character, behind the
    digits when the adjustment is [left] and before them otherwise, so
    that [max(width, _Nb)] characters are inserted; the width is reset to
    0 and the rest of the stream state is kept; and two flag sets are
    written alike exactly when they agree on the low [_Nb] bits,
    whatever bits they hold above.  On a stream that is not good nothing
    is inserted and nothing changes. *)
Theorem stream_shows_low_bits (Nb : Z) :
  0 <= Nb <= 64 ->
  forall (os : ostream) (a b : Flags),
    let digits :=
      map (fun p => digit (Z.testbit (toUnderlyingType a)
                                     (Nb - 1 - Z.of_nat p)))
          (seq 0 (Z.to_nat Nb)) in
    let filling := repeat (fill os) (Z.to_nat (width os - Nb)) in
    (good os = false -> operator_shl Nb os a = os) /\
    (good os = true ->
     inserted (operator_shl Nb os a) =
       inserted os ++ match adjust os with
                      | adjust_left => digits ++ filling
                      | _ => filling ++ digits
                      end /\
     Z.of_nat (length (inserted (operator_shl Nb os a))) =
       Z.of_nat (length (inserted os)) + Z.max (width os) Nb /\
     good (operator_shl Nb os a) = true /\
     width (operator_shl Nb os a) = 0 /\
     fill (operator_shl Nb os a) = fill os /\
     adjust (operator_shl Nb os a) = adjust os /\
     (operator_shl Nb os a = operator_shl Nb os b <->
      forall i, 0 <= i < Nb ->
        Z.testbit (toUnderlyingType a) i =
        Z.testbit (toUnderlyingType b) i)).
Proof.
  intros HNb os a b digits filling.
  unfold operator_shl, insert_bitset, insert_string.
  rewrite !bitset_string_of_flags by exact HNb.
  split; [intros ->; reflexivity |].
  intros ->. cbn [inserted good width fill adjust].
  assert (Hpadded : padded os (bitset_to_string Nb (toUnderlyingType a)) =
                    match adjust os with
                    | adjust_left => digits ++ filling
                    | _ => filling ++ digits
                    end).
  { unfold padded, padding. rewrite bitset_to_string_length.
    rewrite Z2Nat.id by lia. reflexivity. }
  split; [rewrite Hpadded; reflexivity |].
  split.
  { rewrite Hpadded, length_app.
    assert (Hlen : length (match adjust os with
                           | adjust_left => digits ++ filling
                           | _ => filling ++ digits
                           end) =
                   (Z.to_nat Nb + Z.to_nat (width os - Nb))%nat).
    { subst digits filling.
      destruct (adjust os);
        rewrite length_app, length_map, length_seq, repeat_length; lia. }
    rewrite Hlen. lia. }
  do 4 (split; [reflexivity |]).
  split.
  - intros Heq.
    assert (Hins : inserted os ++
                     padded os (bitset_to_string Nb (toUnderlyingType a)) =
                   inserted os ++
                     padded os (bitset_to_string Nb (toUnderlyingType b)))
      by congruence.
    apply app_inv_head in Hins. apply padded_inj in Hins.
    + apply bitset_to_string_inj; [lia | exact Hins].
    + rewrite !bitset_to_string_length. reflexivity.
  - intros Hbits.
    assert (Hsame : bitset_to_string Nb (toUnderlyingType a) =
                    bitset_to_string Nb (toUnderlyingType b)).
    { unfold bitset_to_string. apply map_ext_in. intros p Hp.
      apply in_seq in Hp. rewrite Hbits by lia. reflexivity. }
    rewrite Hsame. reflexivity.
Qed.

Lemma stream_shows_low_bits_witness :
  0 <= 3 <= 64 /\
  inserted (operator_shl 3
              (mkOstream true 5 "*"%byte adjust_unset (Util.bytes "f="))
              (fromUnderlyingType 13)) =
    Util.bytes "f=**101".
Proof.
  assert (HNb : 0 <= 3 <= 64) by lia.
  split; [exact HNb |].
  destruct (stream_shows_low_bits 3 HNb
              (mkOstream true 5 "*"%byte adjust_unset (Util.bytes "f="))
              (fromUnderlyingType 13) (fromUnderlyingType 13))
    as (_ & Hgood).
  destruct (Hgood eq_refl) as (Hinserted & _).
  rewrite Hinserted. reflexivity.
Defined.

End FlagsStreamFacts.

(* ===================================================================== *)
(** ** Further properties of [GpgME::Error] *)
(* ===================================================================== *)

Module ErrorFields.
Import GpgError Error ErrorFacts.

Lemma land_mask_bounds (x n : Z) :
  0 <= n -> 0 <= Z.land x (Z.ones n) < 2 ^ n.
Proof.
  intros Hn. rewrite Z.land_ones by exact Hn.
  apply Z.mod_pos_bound. apply Z.pow_pos_nonneg; lia.
Qed.

(** X8. For every encoded value, [code()] lies in [0, 65536) and
    [sourceID()] in [0, 128): the two accessors never return a number
    outside their field. *)
Theorem fields_in_range (e : Error) :
  0 <= code e < GPG_ERR_CODE_DIM /\ 0 <= sourceID e < GPG_ERR_SOURCE_DIM.
Proof.
  unfold code, sourceID, gpgme_err_code, gpgme_err_source.
  rewrite code_mask_ones, source_mask_ones.
  split; apply land_mask_bounds; lia.
Qed.

Lemma make_fields (source c : Z) :
  c <> GPG_ERR_NO_ERROR ->
  gpgme_err_make source c = (source mod 128) * 2 ^ 24 + c mod 65536.
Proof.
  intros Hne. unfold gpgme_err_make.
  destruct (Z.eqb_spec c GPG_ERR_NO_ERROR) as [H | _]; [contradiction |].
  rewrite code_mask_ones, source_mask_ones. unfold GPG_ERR_SOURCE_SHIFT.
  rewrite !Z.land_ones, Z.shiftl_mul_pow2 by lia.
  change (2 ^ 7) with 128. change (2 ^ 16) with 65536.
  pose proof (Z.mod_pos_bound source 128 ltac:(lia)) as Hs.
  pose proof (Z.mod_pos_bound c 65536 ltac:(lia)) as Hc.
  assert (Hdisjoint : Z.land (source mod 128 * 2 ^ 24) (c mod 65536) = 0).
  { apply Z.bits_inj'. intros i Hi. rewrite Z.land_spec, Z.bits_0.
    destruct (Z.ltb_spec i 24) as [Hlow | Hhigh].
    - rewrite Z.mul_pow2_bits_low by lia. reflexivity.
    - rewrite (Bits.testbit_high (c mod 65536) 16 i) by lia.
      apply andb_false_r. }
  rewrite (Z.add_nocarry_lxor _ _ Hdisjoint).
  symmetry. apply Z.lxor_lor. exact Hdisjoint.
Qed.

Lemma fromCode_code (err src : Z) :
  code (fromCode err src) = err mod 65536.
Proof.
  unfold code, fromCode, Error_ctor. cbn [mErr].
  destruct (Z.eqb_spec err GPG_ERR_NO_ERROR) as [-> | Hne]; [reflexivity |].
  rewrite (make_fields src err Hne). unfold gpgme_err_code.
  rewrite code_mask_ones, Z.land_ones by lia.
  change (2 ^ 16) with 65536. change (2 ^ 24) with (256 * 65536).
  rewrite Z.mul_assoc, Z.add_comm, Z.mod_add by lia.
  apply Z.mod_mod. lia.
Qed.

(** X9. What [fromCode(err, src)] packs, for arguments of any size: the
    code field is [err] modulo 65536, the source field is [src] modulo
    128, or 0 when [err] is 0, and the encoded value is
    [sourceID * 2^24 + code]; bits of the arguments outside the two
    fields are dropped. *)
Theorem fromCode_fields (err src : Z) :
  code (fromCode err src) = err mod 65536 /\
  sourceID (fromCode err src) = (if err =? 0 then 0 else src mod 128) /\
  encodedError (fromCode err src) =
    sourceID (fromCode err src) * 2 ^ 24 + code (fromCode err src).
Proof.
  unfold code, sourceID, encodedError, fromCode, Error_ctor. cbn [mErr].
  destruct (Z.eqb_spec err 0) as [-> | Hne].
  - repeat split; reflexivity.
  - pose proof (Z.mod_pos_bound src 128 ltac:(lia)) as Hs.
    pose proof (Z.mod_pos_bound err 65536 ltac:(lia)) as Hc.
    rewrite (make_fields src err Hne).
    unfold gpgme_err_code, gpgme_err_source.
    rewrite code_mask_ones, source_mask_ones. unfold GPG_ERR_SOURCE_SHIFT.
    rewrite !Z.land_ones, Z.shiftr_div_pow2 by lia.
    change (2 ^ 7) with 128. change (2 ^ 16) with 65536.
    change (2 ^ 24) with (256 * 65536).
    assert (Hcode : (src mod 128 * (256 * 65536) + err mod 65536) mod 65536
                    = err mod 65536).
    { rewrite Z.mul_assoc, Z.add_comm, Z.mod_add by lia.
      apply Z.mod_small. exact Hc. }
    assert (Hsource : ((src mod 128 * (256 * 65536) + err mod 65536)
                         / (256 * 65536)) mod 128 = src mod 128).
    { rewrite Z.add_comm, Z.div_add by lia.
      rewrite (Z.div_small (err mod 65536)) by lia.
      apply Z.mod_small. lia. }
    rewrite Hcode, Hsource. repeat split; reflexivity.
Qed.

(** X10. The class of [fromCode(err, src)] depends on [err] modulo 65536
    and never on [src]: it is a success exactly when that remainder is
    0, canceled exactly when it is 99 or 198, the collaborator's two
    cancellation codes, and an error otherwise. *)
Theorem fromCode_classification (err src : Z) :
  isSuccess (fromCode err src) = (err mod 65536 =? 0) /\
  isCanceled (fromCode err src) =
    ((err mod 65536 =? 99) || (err mod 65536 =? 198)) /\
  isError (fromCode err src) =
    negb (err mod 65536 =? 0) &&
    negb ((err mod 65536 =? 99) || (err mod 65536 =? 198)).
Proof.
  unfold isError, isCanceled, isSuccess. rewrite fromCode_code.
  repeat split; reflexivity.
Qed.

End ErrorFields.

(* ===================================================================== *)
(** ** Further properties of [split_into_string_views] *)
(* ===================================================================== *)

Module UtilMore.
Import CString CStringFacts Util UtilFacts UtilViews.
Local Open Scope nat_scope.

Lemma laid_out_weaken (mem : list byte) (d : byte) (lo lo' : nat)
      (views : list string_view) :
  lo' <= lo -> laid_out mem d lo views -> laid_out mem d lo' views.
Proof.
  destruct views as [| v later]; simpl; [tauto |].
  intros Hle (Hlo & Hrest). split; [lia | exact Hrest].
Qed.

Lemma nth_error_after_stretch (mem seg rest : list byte) (b : byte)
      (s : nat) :
  skipn s mem = seg ++ b :: rest ->
  nth_error mem (s + length seg) = Some b.
Proof.
  intros Hs. rewrite <- nth_error_skipn, Hs.
  rewrite nth_error_app2 by lia. rewrite Nat.sub_diag. reflexivity.
Qed.

Lemma laid_out_emplace (mem seg rest : list byte) (b d : byte) (s : nat)
      (later : list string_view) :
  skipn s mem = seg ++ b :: rest -> b = d \/ b = NUL ->
  laid_out mem d (S (s + length seg)) later ->
  laid_out mem d s (emplace_if_nonempty [] s (length seg) ++ later).
Proof.
  intros Hs Hb Hlater. unfold emplace_if_nonempty.
  destruct (length seg =? 0) eqn:Hlen.
  - simpl. apply laid_out_weaken with (lo := S (s + length seg));
      [lia | exact Hlater].
  - apply Nat.eqb_neq in Hlen. simpl.
    rewrite (nth_error_after_stretch mem seg rest b s Hs).
    split; [lia |]. split; [lia |].
    split; [destruct Hb as [-> | ->]; tauto |].
    replace (s + length seg + 1) with (S (s + length seg)) by lia.
    exact Hlater.
Qed.

(** Where the loop and the final [strlen] put the views. *)
Lemma split_loop_layout (d : byte) (mem : list byte) (s : nat)
      (result : list string_view) :
  d <> NUL -> In NUL (skipn s mem) ->
  exists s1 views n,
    split_loop mem d s result = Some (s1, result ++ views) /\
    strlen mem s1 = Some n /\
    laid_out mem d s (views ++ emplace_if_nonempty [] s1 n).
Proof.
  intros Hd.
  functional induction (split_loop mem d s result)
    as [s result segment_end Hfound IH | s result Hnone | s result Hout];
    intros Hin;
    destruct (strchr_from_cases d (skipn s mem) s Hd Hin)
      as (seg & rest & Hnd & Hn0 & [[Heq Hs] | [Heq Hs]]);
    unfold strchr in *; try congruence.
  - assert (segment_end = s + length seg) as -> by congruence.
    replace (s + length seg - s) with (length seg) in * by lia.
    pose proof (skipn_past mem seg rest d s Heq) as Hrest.
    assert (Hin' : In NUL (skipn (S (s + length seg)) mem)).
    { rewrite Hrest. rewrite Heq in Hin.
      apply in_app_or in Hin. destruct Hin as [H | [H | H]];
        [tauto | congruence | exact H]. }
    destruct (IH Hin') as (s1 & views & n & Hloop & Hlen & Hlaid).
    exists s1, (emplace_if_nonempty [] s (length seg) ++ views), n.
    split; [| split; [exact Hlen |]].
    + rewrite Hloop, emplace_app, app_assoc. reflexivity.
    + rewrite <- app_assoc.
      apply (laid_out_emplace mem seg rest d d s); auto.
  - assert (Hlen : strlen mem s = Some (length seg)).
    { unfold strlen. rewrite strlen_from_terminated by exact Hin.
      rewrite Heq, c_text_stretch by exact Hn0. simpl.
      rewrite app_nil_r. reflexivity. }
    exists s, [], (length seg).
    split; [rewrite app_nil_r; reflexivity |].
    split; [exact Hlen |]. simpl app.
    rewrite <- (app_nil_r (emplace_if_nonempty [] s (length seg))).
    apply (laid_out_emplace mem seg rest NUL d s); auto. exact I.
Qed.

Lemma segments_free (d : byte) (text seg : list byte) :
  In seg (segments d text) ->
  ~ In d seg /\ (forall b, In b seg -> In b text).
Proof.
  revert seg. induction text as [| c tail IH]; intros seg Hin; simpl in Hin.
  - destruct Hin as [<- | []]. split; [tauto | tauto].
  - destruct (byte_eqb_spec c d) as [-> | Hcd].
    + destruct Hin as [<- | Hin]; [split; simpl; tauto |].
      destruct (IH seg Hin) as [Hfree Hsub].
      split; [exact Hfree |]. intros b Hb. right. apply Hsub. exact Hb.
    + destruct (segments d tail) as [| first more] eqn:Hsegs.
      * destruct Hin as [<- | []]. split.
        -- intros [H | []]. congruence.
        -- intros b [<- | []]. left. reflexivity.
      * destruct Hin as [<- | Hin].
        -- destruct (IH first (or_introl eq_refl)) as [Hfree Hsub].
           split.
           ++ intros [H | H]; [congruence | tauto].
           ++ intros b [<- | Hb]; [left; reflexivity |].
              right. apply Hsub. exact Hb.
        -- destruct (IH seg (or_intror Hin)) as [Hfree Hsub].
           split; [exact Hfree |].
           intros b Hb. right. apply Hsub. exact Hb.
Qed.

(** X11. The views lie in the input array in the order returned, each
    of positive size, each directly followed by a delimiter or by the
    terminator, the next one starting behind that byte, so no two views
    overlap or touch; and no view contains a delimiter or a NUL. *)
Theorem split_views_layout (mem : list byte) (d : byte) :
  d <> NUL -> In NUL mem ->
  exists views,
    split_into_string_views (Some mem) d = Some views /\
    laid_out mem d 0 views /\
    Forall (fun v => ~ In d (view_text mem v) /\
                     ~ In NUL (view_text mem v)) views.
Proof.
  intros Hd Hin.
  destruct (split_into_string_views_spec mem d Hd Hin)
    as (views & Hsplit & Htexts & _).
  exists views. split; [exact Hsplit |]. split.
  - destruct (split_loop_layout d mem 0 [] Hd Hin)
      as (s1 & views' & n & Hloop & Hlen & Hlaid).
    unfold split_into_string_views in Hsplit.
    rewrite Hloop, Hlen in Hsplit. simpl app in Hsplit.
    rewrite (emplace_app views') in Hsplit.
    injection Hsplit as <-. exact Hlaid.
  - apply Forall_forall. intros v Hv.
    assert (Hseg : In (view_text mem v)
                      (filter nonempty (segments d (c_text mem)))).
    { rewrite <- Htexts. apply in_map. exact Hv. }
    apply filter_In in Hseg. destruct Hseg as [Hseg _].
    destruct (segments_free d _ _ Hseg) as [Hfree Hsub].
    split; [exact Hfree |].
    intros H0. apply (c_text_no_NUL mem). apply Hsub. exact H0.
Qed.

Lemma split_views_layout_witness :
  comma <> NUL /\ In NUL (literal (bytes ",ab,,c,")) /\
  exists views,
    split_into_string_views (Some (literal (bytes ",ab,,c,"))) comma =
      Some views /\
    laid_out (literal (bytes ",ab,,c,")) comma 0 views.
Proof.
  assert (Hd : comma <> NUL) by discriminate.
  assert (Hin : In NUL (literal (bytes ",ab,,c,"))).
  { vm_compute. tauto. }
  split; [exact Hd |]. split; [exact Hin |].
  destruct (split_views_layout (literal (bytes ",ab,,c,")) comma Hd Hin)
    as (views & Hsplit & Hlaid & _).
  exists views. split; assumption.
Defined.

Lemma split_texts_spec (mem : list byte) (d : byte) :
  d <> NUL -> In NUL mem ->
  split_texts (Some mem) d =
    Some (filter nonempty (segments d (c_text mem))).
Proof.
  intros Hd Hin.
  destruct (split_into_string_views_spec mem d Hd Hin)
    as (views & Hsplit & Htexts & _).
  unfold split_texts. rewrite Hsplit. simpl. rewrite Htexts. reflexivity.
Qed.

Lemma segments_join (d : byte) (texts : list (list byte)) :
  texts <> [] -> Forall (fun text => ~ In d text) texts ->
  segments d (join d texts) = texts.
Proof.
  induction texts as [| text later IH]; intros Hne Hfree; [congruence |].
  inversion Hfree as [| ? ? Htext Hlater]; subst.
  destruct later as [| next more].
  - simpl. apply segments_last. exact Htext.
  - change (join d (text :: next :: more))
      with (text ++ d :: join d (next :: more)).
    rewrite segments_delimiter by exact Htext.
    rewrite IH; [reflexivity | discriminate | exact Hlater].
Qed.

Lemma join_free (d b : byte) (texts : list (list byte)) :
  b <> d -> Forall (fun text => ~ In b text) texts ->
  ~ In b (join d texts).
Proof.
  intros Hbd. induction texts as [| text later IH]; intros Hfree.
  - simpl. tauto.
  - inversion Hfree as [| ? ? Htext Hlater]; subst.
    destruct later as [| next more]; [exact Htext |].
    change (join d (text :: next :: more))
      with (text ++ d :: join d (next :: more)).
    intros Hin. apply in_app_or in Hin.
    destruct Hin as [H | [H | H]]; [tauto | congruence |].
    exact (IH Hlater H).
Qed.

Lemma c_text_NUL_free (text : list byte) :
  ~ In NUL text -> c_text (literal text) = text.
Proof.
  intros Hfree. unfold literal.
  rewrite c_text_stretch by exact Hfree. simpl. apply app_nil_r.
Qed.

(** X12. Splitting undoes joining: for any list of non-empty texts that
    hold neither the delimiter nor a NUL, the C string made by joining
    them with the delimiter splits into exactly these texts, in order. *)
Theorem split_join_roundtrip (d : byte) (texts : list (list byte)) :
  d <> NUL ->
  Forall (fun text => text <> [] /\ ~ In d text /\ ~ In NUL text) texts ->
  split_texts (Some (literal (join d texts))) d = Some texts.
Proof.
  intros Hd Hall.
  assert (Hfree_d : Forall (fun text => ~ In d text) texts).
  { eapply Forall_impl; [| exact Hall]. simpl. tauto. }
  assert (Hfree_0 : Forall (fun text => ~ In NUL text) texts).
  { eapply Forall_impl; [| exact Hall]. simpl. tauto. }
  rewrite split_texts_spec by (exact Hd || apply literal_terminated).
  rewrite c_text_NUL_free
    by (apply join_free; [congruence | exact Hfree_0]).
  f_equal. destruct texts as [| text later]; [reflexivity |].
  rewrite segments_join by (discriminate || exact Hfree_d).
  apply forallb_filter_id. apply forallb_forall. intros t Ht.
  rewrite Forall_forall in Hall. destruct (Hall t Ht) as (Hne & _).
  unfold nonempty. destruct t; [congruence | reflexivity].
Qed.

Lemma split_join_roundtrip_witness :
  split_texts (Some (literal (join comma [bytes "ab"; bytes "c"]))) comma =
    Some [bytes "ab"; bytes "c"].
Proof.
  apply split_join_roundtrip.
  - discriminate.
  - repeat constructor; try discriminate;
      vm_compute; intuition discriminate.
Defined.

Lemma strchr_from_NUL (suffix : list byte) (s : nat) :
  strchr_from suffix s NUL <> Some None.
Proof.
  revert s. induction suffix as [| b rest IH]; intros s; simpl.
  - discriminate.
  - destruct (Byte.eqb b NUL); [discriminate | apply IH].
Qed.

(** X13. The NUL character is no usable delimiter: [strchr] then finds
    the terminator itself, the loop steps behind it, and the scan leaves
    the array, whatever the array holds. *)
Theorem split_NUL_delimiter_leaves_array (mem : list byte) :
  split_into_string_views (Some mem) NUL = None.
Proof.
  assert (Hloop : forall s result, split_loop mem NUL s result = None).
  { intros s result.
    functional induction (split_loop mem NUL s result)
      as [s result segment_end Hfound IH | s result Hnone | s result Hout].
    - exact IH.
    - exfalso. exact (strchr_from_NUL _ _ Hnone).
    - reflexivity. }
  unfold split_into_string_views. rewrite Hloop. reflexivity.
Qed.

End UtilMore.

(* ===================================================================== *)
(** ** Properties of [StringsToCStrings] *)
(* ===================================================================== *)

Module StringsToCStringsFacts.
Import CString CStringFacts StringsToCStringsH.

Lemma entries_of_array (v : list (list byte)) (tail : list c_pointer) :
  entries_before_null (map (fun s => Some (c_str s)) v ++ None :: tail) =
    Some (map c_text v).
Proof.
  induction v as [| s later IH]; simpl; [reflexivity |].
  rewrite IH. unfold c_str. rewrite c_text_literal. reflexivity.
Qed.

Lemma c_strs_filled (this : StringsToCStrings) :
  m_cstrings this <> [] -> c_strs this = (m_cstrings this, this).
Proof.
  intros Hne. unfold c_strs.
  destruct (m_cstrings this); [congruence | reflexivity].
Qed.

(** X14. On an object made from a vector of [n] strings, every call of
    [c_strs()] returns the same array: [n] pointers to the strings'
    characters followed by one null pointer, [n + 1] entries in all,
    also for [n = 0]; a consumer reading up to the null pointer sees the
    texts of the [n] strings in order (each up to its first NUL); and
    the array is built by the first call only. *)
Theorem c_strs_null_terminated (v : list (list byte)) (calls : nat) :
  let array := map (fun s => Some (c_str s)) v ++ [None] in
  fst (c_strs_calls calls (StringsToCStrings_ctor v)) = repeat array calls /\
  snd (c_strs_calls (S calls) (StringsToCStrings_ctor v)) =
    mkStringsToCStrings v array /\
  length array = S (length v) /\
  nth_error array (length v) = Some None /\
  (forall i s, nth_error v i = Some s ->
               nth_error array i = Some (Some (c_str s))) /\
  entries_before_null array = Some (map c_text v).
Proof.
  intros array.
  assert (Hmemo : forall k,
             c_strs_calls k (mkStringsToCStrings v array) =
               (repeat array k, mkStringsToCStrings v array)).
  { induction k as [| k IH]; [reflexivity |].
    simpl. rewrite c_strs_filled.
    - simpl m_cstrings. rewrite IH. reflexivity.
    - simpl. unfold array. intros H. apply app_eq_nil in H.
      destruct H as [_ H]. discriminate. }
  assert (Hcalls : forall k,
             c_strs_calls (S k) (StringsToCStrings_ctor v) =
               (repeat array (S k), mkStringsToCStrings v array)).
  { intros k.
    change (c_strs_calls (S k) (StringsToCStrings_ctor v))
      with (let (a, this1) := c_strs (StringsToCStrings_ctor v) in
            let (arrays, this2) := c_strs_calls k this1 in
            (a :: arrays, this2)).
    change (c_strs (StringsToCStrings_ctor v))
      with (array, mkStringsToCStrings v array).
    cbv beta iota. rewrite Hmemo. reflexivity. }
  split; [| split; [| split; [| split; [| split]]]].
  - destruct calls as [| k]; [reflexivity |]. rewrite Hcalls. reflexivity.
  - rewrite Hcalls. reflexivity.
  - unfold array. rewrite length_app, length_map. simpl. lia.
  - unfold array. rewrite nth_error_app2; rewrite length_map; [| lia].
    rewrite Nat.sub_diag. reflexivity.
  - intros i s Hi. unfold array.
    rewrite nth_error_app1.
    + rewrite nth_error_map, Hi. reflexivity.
    + rewrite length_map. apply nth_error_Some. congruence.
  - unfold array. apply entries_of_array.
Qed.

End StringsToCStringsFacts.

(* ===================================================================== *)
(** ** Properties of the string comparators of src/global.h *)
(* ===================================================================== *)

Module GlobalFacts.
Import CString CStringFacts Global.

Lemma to_N_inj (x y : byte) : Byte.to_N x = Byte.to_N y -> x = y.
Proof.
  intros H. pose proof (Byte.of_to_N x) as Hx.
  rewrite H, Byte.of_to_N in Hx. congruence.
Qed.

Lemma byte_difference (x y : byte) :
  x <> y -> Z.of_N (Byte.to_N x) - Z.of_N (Byte.to_N y) <> 0.
Proof.
  intros Hne Hzero. apply Hne, to_N_inj. lia.
Qed.

Lemma strcmp_total (a b : list byte) :
  In NUL a -> In NUL b -> exists r, strcmp a b = Some r.
Proof.
  revert b. induction a as [| x a' IH]; intros b Ha Hb; [destruct Ha |].
  destruct b as [| y b']; [destruct Hb |]. simpl.
  destruct (byte_eqb_spec x y) as [-> | Hxy]; [| eauto].
  destruct (byte_eqb_spec y NUL) as [-> | Hy]; [eauto |].
  apply IH.
  - destruct Ha as [H | H]; [congruence | exact H].
  - destruct Hb as [H | H]; [congruence | exact H].
Qed.

Lemma strcmp_swap (a b : list byte) (r : Z) :
  strcmp a b = Some r -> strcmp b a = Some (- r).
Proof.
  revert b. induction a as [| x a' IH]; intros b Hab;
    destruct b as [| y b']; simpl in *; try discriminate.
  destruct (byte_eqb_spec x y) as [-> | Hxy].
  - rewrite byte_eqb_refl.
    destruct (byte_eqb_spec y NUL) as [-> | Hy].
    + injection Hab as <-. reflexivity.
    + apply IH. exact Hab.
  - destruct (byte_eqb_spec y x) as [-> | _]; [congruence |].
    injection Hab as <-. f_equal. lia.
Qed.

Lemma strcmp_zero (a b : list byte) (r : Z) :
  strcmp a b = Some r -> (r = 0 <-> c_text a = c_text b).
Proof.
  revert b r. induction a as [| x a' IH]; intros b r Hab;
    destruct b as [| y b']; simpl in *; try discriminate.
  destruct (byte_eqb_spec x y) as [-> | Hxy].
  - destruct (byte_eqb_spec y NUL) as [-> | Hy].
    + injection Hab as <-. tauto.
    + rewrite (IH b' r Hab). split; [congruence |].
      intros H. injection H as H. exact H.
  - injection Hab as <-. split.
    + intros H. exfalso. exact (byte_difference x y Hxy H).
    + intros H. exfalso.
      destruct (byte_eqb_spec x NUL) as [-> | Hx];
        destruct (byte_eqb_spec y NUL) as [-> | Hy];
        congruence.
Qed.

(** The signs of three comparisons fit together. *)
Lemma strcmp_chain (a b c : list byte) (r1 r2 r3 : Z) :
  strcmp a b = Some r1 -> strcmp b c = Some r2 -> strcmp a c = Some r3 ->
  r1 <= 0 -> r2 <= 0 ->
  r3 <= 0 /\ (r1 < 0 \/ r2 < 0 -> r3 < 0).
Proof.
  revert b c r1 r2 r3.
  induction a as [| x a' IH]; intros b c r1 r2 r3 Hab Hbc Hac H1 H2;
    destruct b as [| y b']; destruct c as [| z c'];
    simpl in *; try discriminate.
  destruct (byte_eqb_spec x y) as [-> | Hxy].
  - (* x = y *)
    destruct (byte_eqb_spec y z) as [-> | Hyz].
    + destruct (byte_eqb_spec z NUL) as [-> | Hz].
      * injection Hab as <-. injection Hbc as <-. injection Hac as <-. lia.
      * exact (IH b' c' r1 r2 r3 Hab Hbc Hac H1 H2).
    + injection Hbc as <-. injection Hac as <-.
      pose proof (byte_difference y z Hyz). lia.
  - (* x <> y *)
    injection Hab as <-.
    pose proof (byte_difference x y Hxy) as Hd1.
    destruct (byte_eqb_spec y z) as [-> | Hyz].
    + destruct (byte_eqb_spec x z) as [-> | _]; [congruence |].
      injection Hac as <-. lia.
    + injection Hbc as <-.
      destruct (byte_eqb_spec x z) as [-> | Hxz]; [lia |].
      injection Hac as <-. lia.
Qed.

Lemma gpgmepp_strcmp_total (x y : option (list byte)) :
  c_string_ok x -> c_string_ok y -> exists r, _gpgmepp_strcmp x y = Some r.
Proof.
  destruct x as [a |], y as [b |]; simpl; intros Hx Hy; eauto.
  apply strcmp_total; assumption.
Qed.

(** X15. [_gpgmepp_strcmp] is a total comparison of nullable C strings:
    it returns for every pair; swapping the arguments flips the sign of
    the result; the result is 0 exactly when both pointers are null or
    both strings have the same text; and the null pointer comes before
    every string. *)
Theorem gpgmepp_strcmp_comparison (x y : option (list byte)) :
  c_string_ok x -> c_string_ok y ->
  exists r r',
    _gpgmepp_strcmp x y = Some r /\
    _gpgmepp_strcmp y x = Some r' /\
    Z.sgn r' = - Z.sgn r /\
    (r = 0 <-> text_of x = text_of y) /\
    (x = None -> y <> None -> r < 0).
Proof.
  intros Hx Hy.
  destruct x as [a |], y as [b |]; simpl in *.
  - destruct (strcmp_total a b Hx Hy) as (r & Hr).
    exists r, (- r). split; [exact Hr |].
    split; [apply strcmp_swap; exact Hr |].
    split; [apply Z.sgn_opp |].
    split; [| discriminate].
    rewrite (strcmp_zero a b r Hr). split; congruence.
  - exists 1, (-1). repeat split; try reflexivity; try discriminate.
  - exists (-1), 1. repeat split; try reflexivity; try discriminate.
  - exists 0, 0. repeat split; try reflexivity; congruence.
Qed.

Lemma gpgmepp_strcmp_comparison_witness :
  exists r,
    _gpgmepp_strcmp None (Some (literal (Util.bytes "abc"))) = Some r /\ r < 0.
Proof.
  assert (Hx : c_string_ok None) by exact I.
  assert (Hy : c_string_ok (Some (literal (Util.bytes "abc")))).
  { exact (literal_terminated _). }
  destruct (gpgmepp_strcmp_comparison None _ Hx Hy)
    as (r & r' & Hr & _ & _ & _ & Hnull).
  exists r. split; [exact Hr |]. apply Hnull; [reflexivity | discriminate].
Defined.

Lemma gpgmepp_strcmp_chain (x y z : option (list byte)) (r1 r2 r3 : Z) :
  _gpgmepp_strcmp x y = Some r1 -> _gpgmepp_strcmp y z = Some r2 ->
  _gpgmepp_strcmp x z = Some r3 ->
  r1 <= 0 -> r2 <= 0 ->
  r3 <= 0 /\ (r1 < 0 \/ r2 < 0 -> r3 < 0).
Proof.
  destruct x as [a |], y as [b |], z as [c |]; simpl;
    intros H1 H2 H3 Hle1 Hle2;
    try (injection H1 as <-); try (injection H2 as <-);
    try (injection H3 as <-); try lia.
  exact (strcmp_chain a b c r1 r2 r3 H1 H2 H3 Hle1 Hle2).
Qed.

Lemma gpgmepp_strcmp_swap (x y : option (list byte)) (r : Z) :
  _gpgmepp_strcmp x y = Some r ->
  exists r', _gpgmepp_strcmp y x = Some r' /\ Z.sgn r' = - Z.sgn r.
Proof.
  destruct x as [a |], y as [b |]; simpl; intros Hr.
  - exists (- r). split; [apply strcmp_swap; exact Hr | apply Z.sgn_opp].
  - injection Hr as <-. exists (-1). split; reflexivity.
  - injection Hr as <-. exists 1. split; reflexivity.
  - injection Hr as <-. exists 0. split; reflexivity.
Qed.

Lemma gpgmepp_strcmp_zero (x y : option (list byte)) (r : Z) :
  _gpgmepp_strcmp x y = Some r -> (r = 0 <-> text_of x = text_of y).
Proof.
  destruct x as [a |], y as [b |]; simpl; intros Hr.
  - rewrite (strcmp_zero a b r Hr). split; congruence.
  - injection Hr as <-. split; discriminate.
  - injection Hr as <-. split; discriminate.
  - injection Hr as <-. split; reflexivity.
Qed.

(** X16. With [std::less] the generated functor is a strict weak
    ordering of nullable C strings, as sorting and binary search need:
    nothing is below itself, the order is transitive, and two arguments
    are unordered either way exactly when the [std::equal_to] functor
    calls them equal, that is when they have the same text or are both
    null. *)
Theorem less_functor_strict_weak_order (x y z : option (list byte)) :
  c_string_ok x -> c_string_ok y -> c_string_ok z ->
  strcmp_functor std_less x x = Some false /\
  (strcmp_functor std_less x y = Some true ->
   strcmp_functor std_less y z = Some true ->
   strcmp_functor std_less x z = Some true) /\
  (strcmp_functor std_less x y = Some true ->
   strcmp_functor std_less y x = Some false) /\
  ((strcmp_functor std_less x y = Some false /\
    strcmp_functor std_less y x = Some false) <->
   strcmp_functor std_equal_to x y = Some true) /\
  (strcmp_functor std_equal_to x y = Some true <->
   text_of x = text_of y).
Proof.
  intros Hx Hy Hz.
  destruct (gpgmepp_strcmp_total x x Hx Hx) as (rxx & Hxx).
  pose proof (gpgmepp_strcmp_zero x x rxx Hxx) as Hxx0.
  destruct (gpgmepp_strcmp_total x y Hx Hy) as (rxy & Hxy).
  destruct (gpgmepp_strcmp_swap x y rxy Hxy) as (ryx & Hyx & Hsgn).
  pose proof (gpgmepp_strcmp_zero x y rxy Hxy) as Hxy0.
  destruct (gpgmepp_strcmp_total y z Hy Hz) as (ryz & Hyz).
  destruct (gpgmepp_strcmp_total x z Hx Hz) as (rxz & Hxz).
  unfold strcmp_functor, std_less, std_equal_to.
  rewrite Hxx, Hxy, Hyx, Hyz, Hxz. simpl.
  assert (Hrxx : rxx = 0) by (apply Hxx0; reflexivity).
  split; [subst rxx; reflexivity |].
  split.
  { intros H1 H2. injection H1 as H1. injection H2 as H2.
    apply Z.ltb_lt in H1. apply Z.ltb_lt in H2.
    destruct (gpgmepp_strcmp_chain x y z rxy ryz rxz Hxy Hyz Hxz)
      as [_ Hstrict]; [lia | lia |].
    f_equal. apply Z.ltb_lt. apply Hstrict. left. exact H1. }
  split.
  { intros H1. injection H1 as H1. apply Z.ltb_lt in H1.
    f_equal. apply Z.ltb_ge.
    destruct (Z.sgn_spec rxy) as [[? ?] | [[? ?] | [? ?]]];
      destruct (Z.sgn_spec ryx) as [[? ?] | [[? ?] | [? ?]]]; lia. }
  split.
  { split.
    - intros [H1 H2]. injection H1 as H1. injection H2 as H2.
      apply Z.ltb_ge in H1. apply Z.ltb_ge in H2.
      f_equal. apply Z.eqb_eq.
      destruct (Z.sgn_spec rxy) as [[? ?] | [[? ?] | [? ?]]];
        destruct (Z.sgn_spec ryx) as [[? ?] | [[? ?] | [? ?]]]; lia.
    - intros H. injection H as H. apply Z.eqb_eq in H. subst rxy.
      simpl in Hsgn.
      assert (ryx = 0) by (apply Z.sgn_null_iff; exact Hsgn).
      subst ryx. split; reflexivity. }
  rewrite <- Hxy0. split.
  - intros H. injection H as H. apply Z.eqb_eq. exact H.
  - intros ->. reflexivity.
Qed.

Lemma less_functor_strict_weak_order_witness :
  strcmp_functor std_less (Some (literal (Util.bytes "b")))
                 (Some (literal (Util.bytes "ab"))) = Some false.
Proof.
  assert (Ha : c_string_ok (Some (literal (Util.bytes "ab")))).
  { exact (literal_terminated _). }
  assert (Hb : c_string_ok (Some (literal (Util.bytes "b")))).
  { exact (literal_terminated _). }
  destruct (less_functor_strict_weak_order _ _ None Ha Hb I)
    as (_ & _ & Hasym & _).
  apply Hasym. reflexivity.
Defined.

End GlobalFacts.

(* ===================================================================== *)
(** ** Properties of the command-line parsing of the test programs *)
(* ===================================================================== *)

Module CliFacts.
Import CString CStringFacts Cli.

Lemma dashed_inv (arg : list byte) :
  dashed arg = true ->
  exists rest, arg = "-"%byte :: "-"%byte :: rest.
Proof.
  destruct arg as [| c1 [| c2 rest]]; simpl; try discriminate.
  intros H. apply andb_true_iff in H. destruct H as [H1 H2].
  destruct (byte_eqb_spec c1 "-"%byte) as [-> |]; [| discriminate].
  destruct (byte_eqb_spec c2 "-"%byte) as [-> |]; [| discriminate].
  exists rest. reflexivity.
Qed.

Lemma strcmp_head (x y : byte) (a b : list byte) :
  Global.strcmp (x :: a) (y :: b) = Some 0 -> x = y.
Proof.
  simpl. destruct (byte_eqb_spec x y) as [-> | Hxy]; [reflexivity |].
  intros H. injection H as H. exfalso.
  exact (GlobalFacts.byte_difference x y Hxy H).
Qed.

Lemma strcmp_tail (x : byte) (a b : list byte) :
  x <> NUL -> Global.strcmp (x :: a) (x :: b) = Global.strcmp a b.
Proof.
  intros Hx. simpl. rewrite byte_eqb_refl.
  destruct (byte_eqb_spec x NUL); [contradiction | reflexivity].
Qed.

Lemma strncmp_head (x y : byte) (a b : list byte) (n : nat) :
  strncmp (x :: a) (y :: b) (S n) = Some 0 -> x = y.
Proof.
  simpl. destruct (byte_eqb_spec x y) as [-> | Hxy]; [reflexivity |].
  intros H. injection H as H. exfalso.
  exact (GlobalFacts.byte_difference x y Hxy H).
Qed.

Lemma strncmp_tail (x : byte) (a b : list byte) (n : nat) :
  x <> NUL -> strncmp (x :: a) (x :: b) (S n) = strncmp a b n.
Proof.
  intros Hx. simpl. rewrite byte_eqb_refl.
  destruct (byte_eqb_spec x NUL); [contradiction | reflexivity].
Qed.

Lemma arg_is_zero (arg : list byte) (lit : string) :
  arg_is arg lit = true ->
  Global.strcmp (literal arg) (literal (Util.bytes lit)) = Some 0.
Proof.
  unfold arg_is.
  destruct (Global.strcmp (literal arg) (literal (Util.bytes lit)))
    as [r |]; [| discriminate].
  intros H. apply Z.eqb_eq in H. subst r. reflexivity.
Qed.

Lemma is_text_c_text (arg : list byte) :
  is_text arg = true -> c_text arg = arg.
Proof.
  induction arg as [| b rest IH]; [reflexivity |].
  unfold is_text. cbn [forallb c_text]. intros H.
  apply andb_true_iff in H. destruct H as [Hb Hrest].
  apply negb_true_iff in Hb. rewrite Hb. f_equal. apply IH. exact Hrest.
Qed.

(** [!strcmp( *argv, lit)] holds of the literal's own text only. *)
Lemma arg_is_eq (arg : list byte) (lit : string) :
  is_text arg = true -> is_text (Util.bytes lit) = true ->
  arg_is arg lit = true -> arg = Util.bytes lit.
Proof.
  intros Harg Hlit His. apply arg_is_zero in His.
  pose proof (proj1 (GlobalFacts.strcmp_zero _ _ 0 His) eq_refl) as Htext.
  rewrite !c_text_literal in Htext.
  rewrite (is_text_c_text arg Harg) in Htext.
  rewrite (is_text_c_text _ Hlit) in Htext. exact Htext.
Qed.

Lemma dash_not_NUL : "-"%byte <> NUL.
Proof. discriminate. Qed.

(** An argument equal to a literal that begins with two dashes begins
    with two dashes. *)
Lemma arg_is_dashed (arg : list byte) (lit : string) :
  dashed (Util.bytes lit) = true -> arg_is arg lit = true ->
  dashed arg = true.
Proof.
  intros Hlit His. destruct (dashed_inv _ Hlit) as (more & Hbytes).
  apply arg_is_zero in His. rewrite Hbytes in His. unfold literal in His.
  destruct arg as [| c1 [| c2 rest]].
  - apply strcmp_head in His. discriminate.
  - simpl app in His. pose proof (strcmp_head _ _ _ _ His) as ->.
    rewrite strcmp_tail in His by exact dash_not_NUL.
    apply strcmp_head in His. discriminate.
  - simpl app in His. pose proof (strcmp_head _ _ _ _ His) as ->.
    rewrite strcmp_tail in His by exact dash_not_NUL.
    pose proof (strcmp_head _ _ _ _ His) as ->. reflexivity.
Qed.

Lemma arg_is_not_dashed (arg : list byte) (lit : string) :
  dashed (Util.bytes lit) = true -> dashed arg = false ->
  arg_is arg lit = false.
Proof.
  intros Hlit Harg. destruct (arg_is arg lit) eqn:His; [| reflexivity].
  rewrite (arg_is_dashed arg lit Hlit His) in Harg. discriminate.
Qed.

Lemma arg_starts_dashes (arg : list byte) :
  arg_starts arg "--" 2 = dashed arg.
Proof.
  destruct (dashed arg) eqn:Hd.
  - destruct (dashed_inv _ Hd) as (rest & ->). reflexivity.
  - unfold arg_starts.
    destruct (strncmp (literal arg) (literal (Util.bytes "--")) 2)
      as [r |] eqn:Hcmp; [| reflexivity].
    destruct (Z.eqb_spec r 0) as [-> | _]; [| reflexivity].
    exfalso. unfold literal in Hcmp.
    change (Util.bytes "--") with ["-"%byte; "-"%byte] in Hcmp.
    destruct arg as [| c1 [| c2 rest]]; simpl app in Hcmp.
    + apply strncmp_head in Hcmp. discriminate.
    + pose proof (strncmp_head _ _ _ _ _ Hcmp) as ->.
      rewrite strncmp_tail in Hcmp by exact dash_not_NUL.
      apply strncmp_head in Hcmp. discriminate.
    + pose proof (strncmp_head _ _ _ _ _ Hcmp) as ->.
      rewrite strncmp_tail in Hcmp by exact dash_not_NUL.
      pose proof (strncmp_head _ _ _ _ _ Hcmp) as ->.
      simpl in Hd. discriminate.
Qed.

End CliFacts.

Module RunCreatekeyFacts.
Import CString CStringFacts Cli CliFacts RunCreatekey.

Section CreationFlags.
Variable CreateUseDefaults : Z.
Variable CreateCertify : Z.
Variable CreateSign : Z.
Variable CreateEncrypt : Z.
Variable CreateAuthenticate : Z.
Variable CreateGroupKey : Z.
Variable CreateNoPassword : Z.
Variable CreateForce : Z.

Local Abbreviation option_loop' :=
  (option_loop CreateCertify CreateSign CreateEncrypt CreateAuthenticate
               CreateGroupKey CreateNoPassword CreateForce).
Local Abbreviation apply_switch' :=
  (apply_switch CreateCertify CreateSign CreateEncrypt CreateAuthenticate
                CreateGroupKey CreateNoPassword CreateForce).
Local Abbreviation switch_flag' :=
  (switch_flag CreateCertify CreateSign CreateEncrypt CreateAuthenticate
               CreateGroupKey CreateNoPassword CreateForce).
Local Abbreviation parseCommandLine' :=
  (parseCommandLine CreateUseDefaults CreateCertify CreateSign
                    CreateEncrypt CreateAuthenticate CreateGroupKey
                    CreateNoPassword CreateForce).

Lemma switch_step (sw : Switch) (rest : list (list byte))
      (options : Options) :
  option_loop' (switch_text sw :: rest) options =
    option_loop' rest (apply_switch' options sw).
Proof. destruct sw; reflexivity. Qed.

Lemma switches_loop (switches : list Switch) (rest : list (list byte))
      (options : Options) :
  option_loop' (map switch_text switches ++ rest) options =
    option_loop' rest (fold_left apply_switch' switches options).
Proof.
  revert options. induction switches as [| sw later IH]; intros options.
  - reflexivity.
  - simpl map. simpl app. rewrite switch_step. apply IH.
Qed.

Lemma operand_stops (operand : list byte) (rest : list (list byte))
      (options : Options) :
  dashed operand = false ->
  option_loop' (operand :: rest) options = Return (operand :: rest, options).
Proof.
  intros Hd. cbn [option_loop].
  rewrite !(arg_is_not_dashed operand) by (reflexivity || exact Hd).
  rewrite arg_starts_dashes, Hd. reflexivity.
Qed.

Lemma fold_switches_fields (switches : list Switch) (options : Options) :
  command (fold_left apply_switch' switches options) =
    (if existsb is_Addkey switches then CreateSubkey else command options) /\
  userid (fold_left apply_switch' switches options) = userid options /\
  fingerprint (fold_left apply_switch' switches options) =
    fingerprint options /\
  (forall i, Z.testbit (flags (fold_left apply_switch' switches options)) i =
             Z.testbit (flags options) i ||
             existsb (fun sw => Z.testbit (switch_flag' sw) i) switches).
Proof.
  revert options. induction switches as [| sw later IH]; intros options.
  - simpl. repeat split; try reflexivity.
    intros i. rewrite orb_false_r. reflexivity.
  - simpl fold_left.
    destruct (IH (apply_switch' options sw)) as (Hc & Hu & Hf & Hb).
    rewrite Hc, Hu, Hf.
    split; [| split; [| split]].
    + destruct sw; simpl; try reflexivity.
      destruct (existsb is_Addkey later); reflexivity.
    + destruct sw; reflexivity.
    + destruct sw; reflexivity.
    + intros i. rewrite Hb. simpl existsb.
      destruct sw; simpl; rewrite ?Z.lor_spec, ?Z.bits_0;
        repeat match goal with
               | |- context [Z.testbit ?x i] => destruct (Z.testbit x i)
               end;
        simpl; try reflexivity;
        destruct (existsb _ later); reflexivity.
Qed.

Lemma accepted (switches : list Switch) (operand : list byte)
      (remaining_ok : list (list byte)) (prog : list byte) :
  option_loop' remaining_ok
    (fold_left apply_switch' switches (default_options CreateUseDefaults)) =
    Return ([operand],
            fold_left apply_switch' switches
                      (default_options CreateUseDefaults)) ->
  exists options,
    parseCommandLine' (prog :: map switch_text switches ++ remaining_ok) =
      Return options /\
    parsed_as CreateUseDefaults CreateCertify CreateSign CreateEncrypt
              CreateAuthenticate CreateGroupKey CreateNoPassword
              CreateForce switches operand options.
Proof.
  intros Hrest. unfold parseCommandLine.
  rewrite switches_loop, Hrest.
  destruct (fold_switches_fields switches
              (default_options CreateUseDefaults)) as (Hc & Hu & Hf & Hb).
  simpl in Hc, Hu, Hf, Hb.
  set (final := fold_left apply_switch' switches
                          (default_options CreateUseDefaults)) in *.
  destruct (command final) eqn:Hcmd; eexists; (split; [reflexivity |]);
    unfold parsed_as; simpl; rewrite <- Hc.
  - split; [reflexivity |]. split; [intros _; split; [reflexivity | exact Hf] |].
    split; [discriminate | exact Hb].
  - split; [reflexivity |]. split; [discriminate |].
    split; [intros _; split; [reflexivity | exact Hu] | exact Hb].
Qed.

(** What the loop consumed, when every argument is a C string:
    switches only, and then [--] or nothing; it stops before an argument
    only if that does not begin with two dashes. *)
Lemma option_loop_complete (args : list (list byte)) :
  forallb is_text args = true ->
  forall options,
    match option_loop' args options with
    | Return (remaining, final) =>
        exists switches,
          final = fold_left apply_switch' switches options /\
          (args = map switch_text switches ++ Util.bytes "--" :: remaining \/
           args = map switch_text switches ++ remaining /\
           match remaining with
           | [] => True
           | operand :: _ => dashed operand = false
           end)
    | Exit status =>
        status = 1 \/ (status = 0 /\ In (Util.bytes "--help") args)
    end.
Proof.
  induction args as [| arg rest IH]; intros Htext options.
  - simpl. exists []. split; [reflexivity |].
    right. split; [reflexivity | exact I].
  - cbn [forallb] in Htext. apply andb_true_iff in Htext.
    destruct Htext as [Harg Hrest].
    assert (Hswitch : forall sw, arg = switch_text sw ->
               match option_loop' rest (apply_switch' options sw) with
               | Return (remaining, final) =>
                   exists switches,
                     final = fold_left apply_switch' switches options /\
                     (arg :: rest =
                        map switch_text switches
                          ++ Util.bytes "--" :: remaining \/
                      arg :: rest = map switch_text switches ++ remaining /\
                      match remaining with
                      | [] => True
                      | operand :: _ => dashed operand = false
                      end)
               | Exit status =>
                   status = 1 \/
                   (status = 0 /\ In (Util.bytes "--help") (arg :: rest))
               end).
    { intros sw Hsw. specialize (IH Hrest (apply_switch' options sw)).
      destruct (option_loop' rest (apply_switch' options sw))
        as [status | [remaining final]].
      - destruct IH as [H1 | (H0 & Hin)]; [left; exact H1 |].
        right. split; [exact H0 | right; exact Hin].
      - destruct IH as (switches & Hfinal & Hform).
        exists (sw :: switches). split; [exact Hfinal |].
        cbn [map app]. rewrite <- Hsw.
        destruct Hform as [Hsep | (Hplain & Hd)].
        + left. f_equal. exact Hsep.
        + right. split; [f_equal; exact Hplain | exact Hd]. }
    cbn [option_loop].
    destruct (arg_is arg "--") eqn:Hsep.
    { apply arg_is_eq in Hsep; [| exact Harg | reflexivity].
      exists []. split; [reflexivity |]. left. rewrite Hsep. reflexivity. }
    destruct (arg_is arg "--help") eqn:Hhelp.
    { apply arg_is_eq in Hhelp; [| exact Harg | reflexivity].
      right. split; [reflexivity | left; exact Hhelp]. }
    destruct (arg_is arg "--addkey") eqn:H1.
    { apply arg_is_eq in H1; [| exact Harg | reflexivity].
      exact (Hswitch Addkey H1). }
    destruct (arg_is arg "--certify") eqn:H2.
    { apply arg_is_eq in H2; [| exact Harg | reflexivity].
      exact (Hswitch Certify H2). }
    destruct (arg_is arg "--sign") eqn:H3.
    { apply arg_is_eq in H3; [| exact Harg | reflexivity].
      exact (Hswitch Sign H3). }
    destruct (arg_is arg "--encrypt") eqn:H4.
    { apply arg_is_eq in H4; [| exact Harg | reflexivity].
      exact (Hswitch Encrypt H4). }
    destruct (arg_is arg "--authenticate") eqn:H5.
    { apply arg_is_eq in H5; [| exact Harg | reflexivity].
      exact (Hswitch Authenticate H5). }
    destruct (arg_is arg "--group") eqn:H6.
    { apply arg_is_eq in H6; [| exact Harg | reflexivity].
      exact (Hswitch Group H6). }
    destruct (arg_is arg "--unprotected") eqn:H7.
    { apply arg_is_eq in H7; [| exact Harg | reflexivity].
      exact (Hswitch Unprotected H7). }
    destruct (arg_is arg "--force") eqn:H8.
    { apply arg_is_eq in H8; [| exact Harg | reflexivity].
      exact (Hswitch Force H8). }
    destruct (arg_starts arg "--" 2) eqn:Hdashes.
    + left. reflexivity.
    + exists []. split; [reflexivity |].
      right. split; [reflexivity |].
      rewrite arg_starts_dashes in Hdashes. exact Hdashes.
Qed.

(** Storing the operand after the switches gives the options
    [parsed_as] describes. *)
Lemma parsed_as_stored (switches : list Switch) (operand : list byte) :
  let final := fold_left apply_switch' switches
                         (default_options CreateUseDefaults) in
  parsed_as CreateUseDefaults CreateCertify CreateSign CreateEncrypt
            CreateAuthenticate CreateGroupKey CreateNoPassword
            CreateForce switches operand
            match command final with
            | CreateKey =>
                mkOptions (command final) operand (fingerprint final)
                          (flags final)
            | CreateSubkey =>
                mkOptions (command final) (userid final) operand
                          (flags final)
            end.
Proof.
  intros final.
  destruct (fold_switches_fields switches
              (default_options CreateUseDefaults)) as (Hc & Hu & Hf & Hb).
  simpl in Hc, Hu, Hf, Hb. fold final in Hc, Hu, Hf, Hb.
  destruct (command final) eqn:Hcmd; unfold parsed_as; simpl;
    rewrite <- Hc.
  - split; [reflexivity |].
    split; [intros _; split; [reflexivity | exact Hf] |].
    split; [discriminate | exact Hb].
  - split; [reflexivity |]. split; [discriminate |].
    split; [intros _; split; [reflexivity | exact Hu] | exact Hb].
Qed.

End CreationFlags.

(** X17. [parseCommandLine] accepts any sequence of the eight switches,
    in any order and with repetitions, followed by one operand that does
    not begin with two dashes, or by [--] and any one operand: the
    command is [CreateSubkey] exactly when [--addkey] occurs, the operand
    becomes the fingerprint for [CreateSubkey] and the user id otherwise,
    the other of the two stays empty, and the flags are the union of the
    defaults and of the flags of the switches given. *)
Theorem parseCommandLine_accepts
        (CreateUseDefaults CreateCertify CreateSign CreateEncrypt
         CreateAuthenticate CreateGroupKey CreateNoPassword CreateForce : Z)
        (prog : list byte) (switches : list Switch) (operand : list byte) :
  (dashed operand = false ->
   exists options,
     parseCommandLine CreateUseDefaults CreateCertify CreateSign
                      CreateEncrypt CreateAuthenticate CreateGroupKey
                      CreateNoPassword CreateForce
                      (prog :: map switch_text switches ++ [operand]) =
       Return options /\
     parsed_as CreateUseDefaults CreateCertify CreateSign CreateEncrypt
               CreateAuthenticate CreateGroupKey CreateNoPassword
               CreateForce switches operand options) /\
  (exists options,
     parseCommandLine CreateUseDefaults CreateCertify CreateSign
                      CreateEncrypt CreateAuthenticate CreateGroupKey
                      CreateNoPassword CreateForce
                      (prog :: map switch_text switches
                            ++ [Util.bytes "--"; operand]) =
       Return options /\
     parsed_as CreateUseDefaults CreateCertify CreateSign CreateEncrypt
               CreateAuthenticate CreateGroupKey CreateNoPassword
               CreateForce switches operand options).
Proof.
  split.
  - intros Hd. apply accepted. apply operand_stops. exact Hd.
  - apply accepted. reflexivity.
Qed.

Lemma parseCommandLine_accepts_witness :
  exists options,
    parseCommandLine 0 1 2 4 8 16 32 64
      (Util.bytes "run-createkey"
         :: map switch_text [Sign; Addkey; Sign] ++ [Util.bytes "FPR"]) =
      Return options /\
    command options = CreateSubkey /\
    fingerprint options = Util.bytes "FPR".
Proof.
  destruct (parseCommandLine_accepts 0 1 2 4 8 16 32 64
              (Util.bytes "run-createkey") [Sign; Addkey; Sign]
              (Util.bytes "FPR")) as (Hplain & _).
  destruct (Hplain eq_refl) as (options & Hparse & Hc & _ & Hsub & _).
  exists options. split; [exact Hparse |]. split; [exact Hc |].
  apply Hsub. exact Hc.
Defined.

(** X18. [parseCommandLine] returns for no other command lines than
    those of X17: whatever the arguments, each of them a C string, it
    returns only when the arguments after the program name are switches
    of the eight known ones and then either one operand that does not
    begin with two dashes, or [--] and one operand; the options returned
    are then those the switches and the operand determine.  Otherwise
    the program leaves through [show_usage]: with status 0 only if some
    argument is [--help], else with status 1. *)
Theorem parseCommandLine_sound
        (CreateUseDefaults CreateCertify CreateSign CreateEncrypt
         CreateAuthenticate CreateGroupKey CreateNoPassword CreateForce : Z)
        (argv : list (list byte)) :
  forallb is_text argv = true ->
  match parseCommandLine CreateUseDefaults CreateCertify CreateSign
                         CreateEncrypt CreateAuthenticate CreateGroupKey
                         CreateNoPassword CreateForce argv with
  | Return options =>
      exists prog switches operand,
        (argv = prog :: map switch_text switches ++ [operand] /\
         dashed operand = false \/
         argv = prog :: map switch_text switches
                     ++ [Util.bytes "--"; operand]) /\
        parsed_as CreateUseDefaults CreateCertify CreateSign CreateEncrypt
                  CreateAuthenticate CreateGroupKey CreateNoPassword
                  CreateForce switches operand options
  | Exit status =>
      status = 1 \/ (status = 0 /\ In (Util.bytes "--help") argv)
  end.
Proof.
  intros Htext. destruct argv as [| prog rest]; [left; reflexivity |].
  cbn [forallb] in Htext. apply andb_true_iff in Htext.
  destruct Htext as [_ Hrest].
  pose proof (option_loop_complete CreateCertify CreateSign CreateEncrypt
                CreateAuthenticate CreateGroupKey CreateNoPassword
                CreateForce rest Hrest
                (default_options CreateUseDefaults)) as Hloop.
  unfold parseCommandLine.
  destruct (option_loop CreateCertify CreateSign CreateEncrypt
              CreateAuthenticate CreateGroupKey CreateNoPassword
              CreateForce rest _) as [status | [remaining final]].
  - destruct Hloop as [H1 | (H0 & Hin)]; [left; exact H1 |].
    right. split; [exact H0 | right; exact Hin].
  - destruct Hloop as (switches & Hfinal & Hform).
    destruct remaining as [| operand [| extra more]];
      [left; reflexivity | | left; reflexivity].
    pose proof (parsed_as_stored CreateUseDefaults CreateCertify CreateSign
                  CreateEncrypt CreateAuthenticate CreateGroupKey
                  CreateNoPassword CreateForce switches operand)
      as Hstored.
    cbv zeta in Hstored. rewrite <- Hfinal in Hstored.
    assert (Hargs :
              prog :: rest = prog :: map switch_text switches ++ [operand] /\
              dashed operand = false \/
              prog :: rest = prog :: map switch_text switches
                                  ++ [Util.bytes "--"; operand]).
    { destruct Hform as [Hsep | (Hplain & Hd)].
      - right. f_equal. exact Hsep.
      - left. split; [f_equal; exact Hplain | exact Hd]. }
    destruct (command final);
      exists prog, switches, operand; (split; [exact Hargs | exact Hstored]).
Qed.

Lemma parseCommandLine_sound_witness :
  forallb is_text
          [Util.bytes "run-createkey"; Util.bytes "--sign";
           Util.bytes "--"; Util.bytes "--odd name"] = true /\
  exists prog switches operand,
    ([Util.bytes "run-createkey"; Util.bytes "--sign";
      Util.bytes "--"; Util.bytes "--odd name"] =
       prog :: map switch_text switches ++ [operand] /\
     dashed operand = false \/
     [Util.bytes "run-createkey"; Util.bytes "--sign";
      Util.bytes "--"; Util.bytes "--odd name"] =
       prog :: map switch_text switches ++ [Util.bytes "--"; operand]) /\
    parsed_as 0 1 2 4 8 16 32 64 switches operand
              (mkOptions CreateKey (Util.bytes "--odd name") [] 2).
Proof.
  split; [reflexivity |].
  exact (parseCommandLine_sound 0 1 2 4 8 16 32 64
           [Util.bytes "run-createkey"; Util.bytes "--sign";
            Util.bytes "--"; Util.bytes "--odd name"] eq_refl).
Defined.

End RunCreatekeyFacts.

Module RunGenrandomFacts.
Import CString CStringFacts Cli CliFacts RunGenrandom.

Lemma digit_value_range (b : byte) :
  is_digit b = true -> 0 <= digit_value b <= 9.
Proof.
  unfold is_digit, digit_value. intros H.
  apply andb_true_iff in H. destruct H as [Hlo Hhi].
  apply N.leb_le in Hlo. apply N.leb_le in Hhi. lia.
Qed.

Lemma accumulate_digits (digits rest : list byte) (acc : Z) :
  forallb is_digit digits = true -> no_digit_ahead rest = true ->
  accumulate (digits ++ rest) acc =
    fold_left (fun a b => 10 * a + digit_value b) digits acc.
Proof.
  intros Hdigits Hrest. revert acc Hdigits.
  induction digits as [| b later IH]; intros acc Hdigits.
  - cbn [app fold_left]. destruct rest as [| c more]; [reflexivity |].
    cbn [no_digit_ahead] in Hrest. apply negb_true_iff in Hrest.
    cbn [accumulate]. rewrite Hrest. reflexivity.
  - cbn [forallb] in Hdigits. apply andb_true_iff in Hdigits.
    destruct Hdigits as [Hb Hlater].
    cbn [app accumulate fold_left]. rewrite Hb. apply IH. exact Hlater.
Qed.

Lemma accumulate_nonneg (s : list byte) (acc : Z) :
  0 <= acc -> 0 <= accumulate s acc.
Proof.
  revert acc. induction s as [| b rest IH]; intros acc Hacc;
    cbn [accumulate].
  - exact Hacc.
  - destruct (is_digit b) eqn:Hb; [| exact Hacc].
    apply IH. pose proof (digit_value_range b Hb). lia.
Qed.

Lemma parseNumberArgument_range (s : list byte) (value : Z) :
  parseNumberArgument s = Some value -> 0 <= value <= UINT_MAX.
Proof.
  unfold parseNumberArgument, from_chars.
  destruct s as [| c more]; [discriminate |].
  destruct (is_digit c); [| discriminate].
  destruct (Z.leb_spec (accumulate (c :: more) 0) UINT_MAX) as [Hle | Hgt];
    [| discriminate].
  intros H.
  assert (value = accumulate (c :: more) 0) as -> by congruence.
  split; [apply accumulate_nonneg; lia | exact Hle].
Qed.

(** X19. [parseNumberArgument<unsigned int>] reads the leading run of
    decimal digits and nothing else: for a non-empty run of digits
    followed by anything that does not begin with a digit, the result is
    the number the digits denote when it is at most [UINT_MAX], leading
    zeros allowed, and no value otherwise; characters after the digits
    are ignored; a text that is empty or begins with a sign, a blank or
    any other non-digit gives no value; and every value returned lies in
    [0, UINT_MAX]. *)
Theorem parseNumberArgument_reads_leading_digits :
  (forall digits rest,
      digits <> [] -> forallb is_digit digits = true ->
      no_digit_ahead rest = true ->
      parseNumberArgument (digits ++ rest) =
        (if decimal_value digits <=? UINT_MAX
         then Some (decimal_value digits) else None)) /\
  (forall s, no_digit_ahead s = true -> parseNumberArgument s = None) /\
  (forall s value,
      parseNumberArgument s = Some value -> 0 <= value <= UINT_MAX).
Proof.
  split; [| split].
  - intros digits rest Hne Hdigits Hrest.
    unfold parseNumberArgument, from_chars.
    destruct digits as [| b later]; [congruence |].
    simpl app.
    pose proof Hdigits as Hall.
    cbn [forallb] in Hdigits.
    apply andb_true_iff in Hdigits. destruct Hdigits as [Hb _].
    rewrite Hb.
    change (b :: later ++ rest) with ((b :: later) ++ rest).
    rewrite (accumulate_digits (b :: later) rest 0 Hall Hrest).
    fold (decimal_value (b :: later)).
    destruct (decimal_value (b :: later) <=? UINT_MAX); reflexivity.
  - intros s Hs. unfold parseNumberArgument, from_chars.
    destruct s as [| c more]; [reflexivity |].
    cbn [no_digit_ahead] in Hs. apply negb_true_iff in Hs.
    rewrite Hs. reflexivity.
  - intros s value. unfold parseNumberArgument, from_chars.
    destruct s as [| c more]; [discriminate |].
    destruct (is_digit c); [| discriminate].
    destruct (Z.leb_spec (accumulate (c :: more) 0) UINT_MAX) as [Hle | Hgt];
      [| discriminate].
    intros H.
    assert (value = accumulate (c :: more) 0) as -> by congruence.
    split; [apply accumulate_nonneg; lia | exact Hle].
Qed.

Lemma parseNumberArgument_reads_leading_digits_witness :
  parseNumberArgument (Util.bytes "12" ++ Util.bytes "abc") =
    (if decimal_value (Util.bytes "12") <=? UINT_MAX
     then Some (decimal_value (Util.bytes "12")) else None).
Proof.
  destruct parseNumberArgument_reads_leading_digits as (Hdigits & _).
  apply Hdigits; [discriminate | reflexivity | reflexivity].
Defined.

(** What the loop consumed, when every argument is a C string:
    command switches only, and then [--] or nothing; [command] and
    [needsNumber] are those of the last switch, or as they were when
    there was none; the loop stops before an argument only if that does
    not begin with two dashes. *)
Lemma command_loop_complete (args : list (list byte)) :
  forallb is_text args = true ->
  forall command needsNumber,
    match command_loop args command needsNumber with
    | Return (remaining, final, needs) =>
        exists switches,
          (switches = [] /\ final = command /\ needs = needsNumber \/
           exists earlier last,
             switches = earlier ++ [last] /\
             final = switch_command last /\
             needs = switch_needsNumber last) /\
          (args = map switch_text switches ++ Util.bytes "--" :: remaining \/
           args = map switch_text switches ++ remaining /\
           match remaining with
           | [] => True
           | arg :: _ => dashed arg = false
           end)
    | Exit status =>
        status = 1 \/ (status = 0 /\ In (Util.bytes "--help") args)
    end.
Proof.
  induction args as [| arg rest IH]; intros Htext command needsNumber.
  - simpl. exists []. split; [left; repeat split |].
    right. split; [reflexivity | exact I].
  - cbn [forallb] in Htext. apply andb_true_iff in Htext.
    destruct Htext as [Harg Hrest].
    assert (Hswitch : forall sw, arg = switch_text sw ->
               match command_loop rest (switch_command sw)
                                  (switch_needsNumber sw) with
               | Return (remaining, final, needs) =>
                   exists switches,
                     (switches = [] /\ final = command /\
                      needs = needsNumber \/
                      exists earlier last,
                        switches = earlier ++ [last] /\
                        final = switch_command last /\
                        needs = switch_needsNumber last) /\
                     (arg :: rest =
                        map switch_text switches
                          ++ Util.bytes "--" :: remaining \/
                      arg :: rest = map switch_text switches ++ remaining /\
                      match remaining with
                      | [] => True
                      | a :: _ => dashed a = false
                      end)
               | Exit status =>
                   status = 1 \/
                   (status = 0 /\ In (Util.bytes "--help") (arg :: rest))
               end).
    { intros sw Hsw.
      specialize (IH Hrest (switch_command sw) (switch_needsNumber sw)).
      destruct (command_loop rest (switch_command sw)
                             (switch_needsNumber sw))
        as [status | [[remaining final] needs]].
      - destruct IH as [H1 | (H0 & Hin)]; [left; exact H1 |].
        right. split; [exact H0 | right; exact Hin].
      - destruct IH as (switches & Hlast & Hform).
        exists (sw :: switches). split.
        + right.
          destruct Hlast as [(-> & -> & ->) | (earlier & last & -> & Hl)].
          * exists [], sw. repeat split.
          * exists (sw :: earlier), last. split; [reflexivity | exact Hl].
        + cbn [map app]. rewrite <- Hsw.
          destruct Hform as [Hsep | (Hplain & Hd)].
          * left. f_equal. exact Hsep.
          * right. split; [f_equal; exact Hplain | exact Hd]. }
    cbn [command_loop].
    destruct (arg_is arg "--") eqn:Hsep.
    { apply arg_is_eq in Hsep; [| exact Harg | reflexivity].
      exists []. split; [left; repeat split |].
      left. rewrite Hsep. reflexivity. }
    destruct (arg_is arg "--help") eqn:Hhelp.
    { apply arg_is_eq in Hhelp; [| exact Harg | reflexivity].
      right. split; [reflexivity | left; exact Hhelp]. }
    destruct (arg_is arg "--number") eqn:H1.
    { apply arg_is_eq in H1; [| exact Harg | reflexivity].
      exact (Hswitch SwNumber H1). }
    destruct (arg_is arg "--bytes") eqn:H2.
    { apply arg_is_eq in H2; [| exact Harg | reflexivity].
      exact (Hswitch SwBytes H2). }
    destruct (arg_is arg "--zbase32") eqn:H3.
    { apply arg_is_eq in H3; [| exact Harg | reflexivity].
      exact (Hswitch SwZBase32 H3). }
    destruct (arg_starts arg "--" 2) eqn:Hdashes.
    + left. reflexivity.
    + exists []. split; [left; repeat split |].
      right. split; [reflexivity |].
      rewrite arg_starts_dashes in Hdashes. exact Hdashes.
Qed.

(** X20. [main] gets past its argument checks for no other command
    lines than these: whatever the arguments, each of them a C string,
    the arguments after the program name are command switches, at least
    one, of which the last selects the command; after them comes
    nothing or [--] when the command is [ZBase32], the number being 0
    then, and for [Number] and [Bytes] one argument that does not begin
    with two dashes, or [--] and one argument, which
    [parseNumberArgument] turned into the number, a value in
    [0, UINT_MAX].  In every other case the program leaves through
    [show_usage]: with status 0 only if some argument is [--help], else
    with status 1. *)
Theorem main_arguments_sound (argv : list (list byte)) :
  forallb is_text argv = true ->
  match main_arguments argv with
  | Return (command, number) =>
      exists prog earlier last,
        command = switch_command last /\
        0 <= number <= UINT_MAX /\
        if switch_needsNumber last
        then exists arg,
               parseNumberArgument arg = Some number /\
               (argv = prog :: map switch_text (earlier ++ [last])
                            ++ [arg] /\
                dashed arg = false \/
                argv = prog :: map switch_text (earlier ++ [last])
                            ++ [Util.bytes "--"; arg])
        else number = 0 /\
             (argv = prog :: map switch_text (earlier ++ [last]) \/
              argv = prog :: map switch_text (earlier ++ [last])
                          ++ [Util.bytes "--"])
  | Exit status =>
      status = 1 \/ (status = 0 /\ In (Util.bytes "--help") argv)
  end.
Proof.
  intros Htext. destruct argv as [| prog rest]; [left; reflexivity |].
  cbn [forallb] in Htext. apply andb_true_iff in Htext.
  destruct Htext as [_ Hrest].
  pose proof (command_loop_complete rest Hrest None_ false) as Hloop.
  unfold main_arguments.
  destruct (command_loop rest None_ false)
    as [status | [[remaining command] needsNumber]].
  - destruct Hloop as [H1 | (H0 & Hin)]; [left; exact H1 |].
    right. split; [exact H0 | right; exact Hin].
  - destruct Hloop as (switches & Hlast & Hform).
    destruct Hlast as [(-> & -> & ->) | (earlier & last & -> & -> & ->)];
      [left; reflexivity |].
    assert (Hselected : Command_eqb (switch_command last) None_ = false)
      by (destruct last; reflexivity).
    rewrite Hselected.
    destruct (switch_needsNumber last) eqn:Hneeds; cbn [andb negb orb].
    + destruct remaining as [| arg [| extra more]];
        [left; reflexivity | | left; reflexivity].
      cbn [length Nat.eqb negb].
      destruct (parseNumberArgument arg) as [number |] eqn:Hparse;
        [| left; reflexivity].
      exists prog, earlier, last. split; [reflexivity |].
      split; [exact (parseNumberArgument_range arg number Hparse) |].
      rewrite Hneeds. exists arg. split; [exact Hparse |].
      destruct Hform as [Hsep | (Hplain & Hd)].
      * right. f_equal. exact Hsep.
      * left. split; [f_equal; exact Hplain | exact Hd].
    + destruct remaining as [| arg more]; [| left; reflexivity].
      cbn [length Nat.eqb negb].
      exists prog, earlier, last. split; [reflexivity |].
      split; [unfold UINT_MAX; lia |].
      rewrite Hneeds. split; [reflexivity |].
      destruct Hform as [Hsep | (Hplain & _)].
      * right. f_equal. exact Hsep.
      * left. f_equal. rewrite Hplain. apply app_nil_r.
Qed.

Lemma main_arguments_sound_witness :
  forallb is_text
          [Util.bytes "run-genrandom"; Util.bytes "--zbase32";
           Util.bytes "--bytes"; Util.bytes "--"; Util.bytes "16"] = true /\
  exists prog earlier last,
    Bytes = switch_command last /\
    0 <= 16 <= UINT_MAX /\
    if switch_needsNumber last
    then exists arg,
           parseNumberArgument arg = Some 16 /\
           ([Util.bytes "run-genrandom"; Util.bytes "--zbase32";
             Util.bytes "--bytes"; Util.bytes "--"; Util.bytes "16"] =
              prog :: map switch_text (earlier ++ [last]) ++ [arg] /\
            dashed arg = false \/
            [Util.bytes "run-genrandom"; Util.bytes "--zbase32";
             Util.bytes "--bytes"; Util.bytes "--"; Util.bytes "16"] =
              prog :: map switch_text (earlier ++ [last])
                   ++ [Util.bytes "--"; arg])
    else 16 = 0 /\
         ([Util.bytes "run-genrandom"; Util.bytes "--zbase32";
           Util.bytes "--bytes"; Util.bytes "--"; Util.bytes "16"] =
            prog :: map switch_text (earlier ++ [last]) \/
          [Util.bytes "run-genrandom"; Util.bytes "--zbase32";
           Util.bytes "--bytes"; Util.bytes "--"; Util.bytes "16"] =
            prog :: map switch_text (earlier ++ [last])
                 ++ [Util.bytes "--"]).
Proof.
  split; [reflexivity |].
  exact (main_arguments_sound
           [Util.bytes "run-genrandom"; Util.bytes "--zbase32";
            Util.bytes "--bytes"; Util.bytes "--"; Util.bytes "16"]
           eq_refl).
Defined.

Lemma command_switch_step (sw : Switch) (rest : list (list byte))
      (command : Command) (needsNumber : bool) :
  command_loop (switch_text sw :: rest) command needsNumber =
    command_loop rest (switch_command sw) (switch_needsNumber sw).
Proof. destruct sw; reflexivity. Qed.

Lemma command_switches_loop (earlier : list Switch) (last : Switch)
      (rest : list (list byte)) (command : Command) (needsNumber : bool) :
  command_loop (map switch_text (earlier ++ [last]) ++ rest)
               command needsNumber =
    command_loop rest (switch_command last) (switch_needsNumber last).
Proof.
  revert command needsNumber.
  induction earlier as [| sw later IH]; intros command needsNumber.
  - simpl. apply command_switch_step.
  - simpl map. simpl app. rewrite command_switch_step. apply IH.
Qed.

(** X21. Of several command switches the last one decides: after any
    sequence of switches ending in [--zbase32] and no further argument
    the command is [ZBase32]; after any sequence ending in [--number] or
    [--bytes] and one more argument that does not begin with two dashes,
    the command is that of the last switch and the number is what
    [parseNumberArgument] makes of the argument, the program leaving with
    status 1 when that is nothing. *)
Theorem main_arguments_last_switch (prog : list byte)
        (earlier : list Switch) (last : Switch) :
  (switch_needsNumber last = false ->
   main_arguments (prog :: map switch_text (earlier ++ [last])) =
     Return (switch_command last, 0)) /\
  (switch_needsNumber last = true ->
   forall arg, dashed arg = false ->
     main_arguments (prog :: map switch_text (earlier ++ [last]) ++ [arg]) =
       match parseNumberArgument arg with
       | Some number => Return (switch_command last, number)
       | None => Exit 1
       end).
Proof.
  split.
  - intros Hlast. unfold main_arguments.
    rewrite <- (app_nil_r (map switch_text (earlier ++ [last]))).
    rewrite command_switches_loop. destruct last; try discriminate. reflexivity.
  - intros Hlast arg Hd. unfold main_arguments.
    rewrite command_switches_loop.
    assert (Hstop : forall command needsNumber,
               command_loop [arg] command needsNumber =
                 Return ([arg], command, needsNumber)).
    { intros command needsNumber. cbn [command_loop].
      rewrite !(arg_is_not_dashed arg) by (reflexivity || exact Hd).
      rewrite arg_starts_dashes, Hd. reflexivity. }
    rewrite Hstop. destruct last; try discriminate; reflexivity.
Qed.

Lemma main_arguments_last_switch_witness :
  main_arguments (Util.bytes "run-genrandom"
                    :: map switch_text ([SwNumber] ++ [SwBytes])
                    ++ [Util.bytes "16 bytes"]) =
    match parseNumberArgument (Util.bytes "16 bytes") with
    | Some number => Return (switch_command SwBytes, number)
    | None => Exit 1
    end.
Proof.
  destruct (main_arguments_last_switch (Util.bytes "run-genrandom")
              [SwNumber] SwBytes) as (_ & Hnumber).
  apply Hnumber; reflexivity.
Defined.

End RunGenrandomFacts.
